(** * Autostereogram generation (autos/autos.py): model and properties

    The development embeds the four functions of the autostereogram
    pipeline -- [createRandomTile], [createTiledImage],
    [createDepthShiftedImage] and [createAutostereogram] -- together with
    the part of Pillow's image interface they call, the two helpers
    [createDepthMap] and [createSpacingDepthExample], and the integer
    parts of the anamorph viewer (anamorphic/anamorphgl.py): the index
    buffer of its triangle strip, its angle counter and its keyboard
    flags.

    Modelling conventions.
    - The text is read as Python 3: [range(math.ceil(W / w))] needs
      [math.ceil] to return an integer, and [/] is true division.
    - An image is a record of its mode, its size and its pixel rows.  Two
      modes are modelled, L (one number per pixel) and RGB.
    - Each function is given twice.  The first definition works on image
      values and threads the generator state; it is the one most
      properties are stated on.  The second ([..._st]) follows the Python
      text statement by statement on a store of mutable image objects;
      it is proved to compute the first, and carries the properties about
      mutation and about runs on different stores.
    - [/] yields a binary64 number.  The only quotients computed are
      [W / w] (followed by [math.ceil]) and [pixD[i, j] / 10] (added to an
      integer column, compared with integers and truncated by the pixel
      accessor).  For image sizes that Pillow admits (below 2^31) rounding
      to binary64 changes neither the comparisons with integers nor the
      integer parts, so these quotients are modelled exactly, in [Q].
    - A Python exception is modelled as [None]. *)

From Stdlib Require Import ZArith QArith Qround Lia.
From stdpp Require Import base option list gmap.

Local Open Scope Z_scope.
#[local] Set Default Proof Using "Type".

(** ** Images *)

Inductive mode := ModeL | ModeRGB.

Inductive pixel :=
  | PxL (v : Z)
  | PxRGB (r g b : Z).

#[global] Instance mode_eq_dec : EqDecision mode.
Proof. solve_decision. Defined.

#[global] Instance pixel_eq_dec : EqDecision pixel.
Proof. solve_decision. Defined.

Abbreviation grid := (list (list pixel)).

Record image := Image {
  im_mode : mode;
  im_width : nat;
  im_height : nat;
  im_data : grid
}.

(** [Image.size] *)
Definition im_size (im : image) : nat * nat := (im_width im, im_height im).

Definition with_data (im : image) (pix : grid) : image :=
  {| im_mode := im_mode im; im_width := im_width im;
     im_height := im_height im; im_data := pix |}.

Definition pixel_has_mode (m : mode) (p : pixel) : Prop :=
  match m, p with
  | ModeL, PxL _ => True
  | ModeRGB, PxRGB _ _ _ => True
  | _, _ => False
  end.

(** The pixel rows agree with the declared size and mode. *)
Definition grid_dims (W H : nat) (pix : grid) : Prop :=
  length pix = H ∧ Forall (λ row, length row = W) pix.

Definition wf_image (im : image) : Prop :=
  grid_dims (im_width im) (im_height im) (im_data im) ∧
  Forall (Forall (pixel_has_mode (im_mode im))) (im_data im).

(** Pixel access, [pix[x, y]].  A coordinate outside the image is an
    [IndexError].  (Pillow counts a negative coordinate from the far edge;
    the program passes none: the loop indices are not negative and the
    guard [0 < xpos] precedes the only computed coordinate.) *)
Definition getpixel (pix : grid) (x y : Z) : option pixel :=
  if (0 <=? x) && (0 <=? y) then
    row ← pix !! Z.to_nat y; row !! Z.to_nat x
  else None.

(** [pix[x, y] = v] *)
Definition putpixel (pix : grid) (x y : Z) (v : pixel) : option grid :=
  if (0 <=? x) && (0 <=? y) then
    row ← pix !! Z.to_nat y;
    if decide (Z.to_nat x < length row)%nat
    then Some (<[Z.to_nat y := <[Z.to_nat x := v]> row]> pix)
    else None
  else None.

(** [Image.new(mode, dims)]: an image filled with colour 0 (black). *)
Definition black (m : mode) : pixel :=
  match m with
  | ModeL => PxL 0
  | ModeRGB => PxRGB 0 0 0
  end.

Definition new_image (m : mode) (dims : nat * nat) : image :=
  {| im_mode := m; im_width := dims.1; im_height := dims.2;
     im_data := replicate dims.2 (replicate dims.1 (black m)) |}.

(** A pixel as [paste] stores it in an RGB image: a grey level is
    replicated on the three bands. *)
Definition to_rgb (p : pixel) : pixel :=
  match p with
  | PxL v => PxRGB v v v
  | PxRGB r g b => PxRGB r g b
  end.

(** [img.paste(tile, (x0, y0))] on an RGB image: the pixels of [img] that
    lie in the box of corner [(x0, y0)] and of the tile's size take the
    tile's pixels; the part of the box outside [img] is dropped. *)
Definition paste_pixel (tile : image) (x0 y0 : Z) (x y : nat) (old : pixel)
    : pixel :=
  if (x0 <=? Z.of_nat x) && (Z.of_nat x <? x0 + Z.of_nat (im_width tile)) &&
     (y0 <=? Z.of_nat y) && (Z.of_nat y <? y0 + Z.of_nat (im_height tile))
  then
    match getpixel (im_data tile) (Z.of_nat x - x0) (Z.of_nat y - y0) with
    | Some p => to_rgb p
    | None => old
    end
  else old.

Definition paste (img tile : image) (box : Z * Z) : image :=
  with_data img
    (imap (λ y row, imap (λ x old, paste_pixel tile box.1 box.2 x y old) row)
          (im_data img)).

(** ** Numbers *)

(** [a / b] on integers; [ZeroDivisionError] when [b = 0]. *)
Definition truediv (a b : Z) : option Q :=
  if decide (b = 0) then None else Some (inject_Z a / inject_Z b)%Q.

(** [x < y] on numbers *)
Definition Qltb (x y : Q) : bool := negb (Qle_bool y x).

(** Conversion of a number to a C [int] by the pixel accessor: the
    fractional part is dropped (rounding toward zero). *)
Definition int_of (x : Q) : Z := Z.quot (Qnum x) (Zpos (Qden x)).

(** A depth sample takes part in arithmetic only when it is a single
    number; dividing a tuple raises [TypeError]. *)
Definition number_of (p : pixel) : option Z :=
  match p with
  | PxL v => Some v
  | PxRGB _ _ _ => None
  end.

(** ** Loops *)

Fixpoint for_each {S : Type} (idx : list nat) (body : nat → S → option S)
    (s : S) : option S :=
  match idx with
  | [] => Some s
  | i :: rest => s' ← body i s; for_each rest body s'
  end.

(** [for i in range(n): body] *)
Definition for_range {S : Type} (n : nat) (body : nat → S → option S)
    (s : S) : option S :=
  for_each (seq 0 n) body s.

(** ** createDepthShiftedImage *)

(** [xpos = i - period + pixD[i, j]/10] *)
Definition xpos_of (period : Z) (i : nat) (d : Z) : option Q :=
  xshift ← truediv d 10;
  Some (inject_Z (Z.of_nat i - period) + xshift)%Q.

(** [0 < xpos < cols] *)
Definition in_bounds (xpos : Q) (cols : nat) : bool :=
  Qltb 0 xpos && Qltb xpos (inject_Z (Z.of_nat cols)).

(** The body of the inner loop, at column [i] of row [j]. *)
Definition shift_pixel (pixD : grid) (period : Z) (cols : nat) (j i : nat)
    (pixS : grid) : option grid :=
  d ← getpixel pixD (Z.of_nat i) (Z.of_nat j) ≫= number_of;
  xpos ← xpos_of period i d;
  if in_bounds xpos cols then
    v ← getpixel pixS (int_of xpos) (Z.of_nat j);
    putpixel pixS (Z.of_nat i) (Z.of_nat j) v
  else Some pixS.

Definition createDepthShiftedImage (dmap img : image) (period : Z)
    : option image :=
  if decide (im_size dmap = im_size img) then
    let sImg := img in
    let pixD := im_data dmap in
    let '(cols, rows) := im_size sImg in
    pixS ← for_range rows
             (λ j, for_range cols (shift_pixel pixD period cols j))
             (im_data sImg);
    Some (with_data sImg pixS)
  else None.

(** The variant that the in-place pass is compared with: every source
    pixel is read from [src], an immutable copy of the buffer taken before
    the pass; only the destination [pixS] is written. *)
Definition shift_pixel_from_copy (pixD src : grid) (period : Z) (cols : nat)
    (j i : nat) (pixS : grid) : option grid :=
  d ← getpixel pixD (Z.of_nat i) (Z.of_nat j) ≫= number_of;
  xpos ← xpos_of period i d;
  if in_bounds xpos cols then
    v ← getpixel src (int_of xpos) (Z.of_nat j);
    putpixel pixS (Z.of_nat i) (Z.of_nat j) v
  else Some pixS.

Definition createDepthShiftedImage_from_copy (dmap img : image) (period : Z)
    : option image :=
  if decide (im_size dmap = im_size img) then
    let src := im_data img in
    let pixD := im_data dmap in
    let '(cols, rows) := im_size img in
    pixS ← for_range rows
             (λ j, for_range cols (shift_pixel_from_copy pixD src period cols j))
             (im_data img);
    Some (with_data img pixS)
  else None.

(** ** Row view of the pass

    The inner loop at row [j] reads and writes row [j] of the buffer only;
    [shift_cell] is its body seen on that row. *)

Definition shift_cell (period : Z) (cols : nat) (drow : list pixel) (i : nat)
    (srow : list pixel) : option (list pixel) :=
  d ← drow !! i ≫= number_of;
  xpos ← xpos_of period i d;
  if in_bounds xpos cols then
    if 0 <=? int_of xpos then
      v ← srow !! Z.to_nat (int_of xpos);
      if decide (i < length srow)%nat then Some (<[i := v]> srow) else None
    else None
  else Some srow.

Definition shift_row (period : Z) (cols : nat) (drow srow : list pixel)
    : option (list pixel) :=
  for_range cols (shift_cell period cols drow) srow.

(** [im[i, j]] for an image value *)
Definition pixel_at (im : image) (i j : nat) : option pixel :=
  row ← im_data im !! j; row !! i.

(** The guard [0 < xpos < cols] and the column read, in integers:
    [xpos] is [(10 * (i - period) + d) / 10]. *)
Definition tenths (period : Z) (i : nat) (d : Z) : Z :=
  10 * (Z.of_nat i - period) + d.

Definition writes (period : Z) (cols : nat) (i : nat) (d : Z) : bool :=
  (0 <? tenths period i d) && (tenths period i d <? 10 * Z.of_nat cols).

Definition src_col (period : Z) (i : nat) (d : Z) : Z :=
  Z.of_nat i - period + d / 10.

(** On a depth map of constant value [d] every column that passes the
    guard is assigned from the column [k = period - floor(d / 10)] to its
    left.  When [k > 0] the columns [0 .. m] fail the guard, with [m = k]
    if 10 divides [d] and [m = k - 1] otherwise, and a column [i > m]
    ends with the value that stepping back [k] columns at a time reaches
    in [m - k + 1 .. m].  When [k <= 0] the source column [i - k] is at
    or to the right of [i], not yet passed over.  [uniform_origin] is the
    column of the input image whose value column [i] ends with. *)
Definition uniform_origin (period d : Z) (i : nat) : Z :=
  let k := period - d / 10 in
  let m := if decide (d mod 10 = 0) then k else k - 1 in
  if decide (k ≤ 0) then Z.of_nat i - k
  else if decide (Z.of_nat i ≤ m) then Z.of_nat i
  else m - (m - Z.of_nat i) mod k.

(** [i - period] is an integer of any size; adding the float [xshift]
    converts it to binary64, which raises [OverflowError] beyond the
    largest finite value.  [float_convertible n] holds of the integers
    that convert. *)
Definition float_convertible (n : Z) : Prop :=
  Z.abs n < 2 ^ 1024 - 2 ^ 970.

(** ** createTiledImage *)

(** [math.ceil(W / w)] *)
Definition tile_count (W w : nat) : option Z :=
  q ← truediv (Z.of_nat W) (Z.of_nat w); Some (Qceiling q).

Definition createTiledImage (tile : image) (dims : nat * nat) : option image :=
  let img := new_image ModeRGB dims in
  let '(W, H) := dims in
  let '(w, h) := im_size tile in
  cols ← tile_count W w;
  rows ← tile_count H h;
  for_range (Z.to_nat rows) (λ i,
    for_range (Z.to_nat cols) (λ j img,
      Some (paste img tile (Z.of_nat j * Z.of_nat w, Z.of_nat i * Z.of_nat h))))
    img.

(** The tile's pixel that lands on canvas position [(x, y)]. *)
Definition tile_px (tile : image) (x y : nat) : pixel :=
  default (black ModeRGB)
    (to_rgb <$> pixel_at tile (x mod im_width tile) (y mod im_height tile)).

(** Two images with the same mode and size. *)
Definition same_header (a b : image) : Prop :=
  im_mode a = im_mode b ∧ im_width a = im_width b ∧ im_height a = im_height b.

(** ** createDepthMap *)

(** [img.paste(colour, (x0, y0, x1, y1))]: the pixels of [img] in the box,
    right and lower edges excluded, take the colour; the part of the box
    outside [img] is dropped. *)
Definition paste_color (img : image) (colour : pixel) (box : Z * Z * Z * Z)
    : image :=
  let '(x0, y0, x1, y1) := box in
  with_data img
    (imap (λ y row,
       imap (λ x old,
         if (x0 <=? Z.of_nat x) && (Z.of_nat x <? x1) &&
            (y0 <=? Z.of_nat y) && (Z.of_nat y <? y1)
         then colour else old) row)
       (im_data img)).

Definition createDepthMap (dims : nat * nat) : image :=
  let dmap := new_image ModeL dims in
  let dmap := paste_color dmap (PxL 10) (200, 25, 300, 125) in
  let dmap := paste_color dmap (PxL 30) (200, 150, 300, 250) in
  let dmap := paste_color dmap (PxL 20) (200, 275, 300, 375) in
  dmap.

(** The depth sample [createDepthMap] stores at [(x, y)]. *)
Definition depth_at (x y : nat) : Z :=
  if (200 <=? x)%nat && (x <? 300)%nat then
    if (25 <=? y)%nat && (y <? 125)%nat then 10
    else if (150 <=? y)%nat && (y <? 250)%nat then 30
    else if (275 <=? y)%nat && (y <? 375)%nat then 20
    else 0
  else 0.

(** ** createSpacingDepthExample

    The three tiles are read from files; the function is modelled on the
    list of the images read, and returns the image it saves.
    [spacing_example copies] pastes [copies] copies of each tile; the
    source pastes 8. *)

Definition spacing_example (copies : nat) (tiles : list image) : image :=
  let img := new_image ModeRGB (600%nat, 400%nat) in
  foldl (λ img '(j, tile),
           foldl (λ img i,
                    paste img tile
                      (10 + Z.of_nat i * (100 + Z.of_nat j * 10),
                       10 + Z.of_nat j * 100))
                 img (seq 0 copies))
        img (zip (seq 0 (length tiles)) tiles).

Definition createSpacingDepthExample (tiles : list image) : image :=
  spacing_example 8 tiles.

(** What every pass of the spacing example keeps: a well-formed
    600 x 400 RGB canvas with a black margin of 10 pixels at the left
    and at the top. *)
Definition canvas_inv (img : image) : Prop :=
  wf_image img ∧ im_mode img = ModeRGB ∧
  im_width img = 600%nat ∧ im_height img = 400%nat ∧
  ∀ x y : nat, (x < 10)%nat ∨ (y < 10)%nat → (x < 600)%nat → (y < 400)%nat →
    pixel_at img x y = Some (PxRGB 0 0 0).

(** ** Anamorph (anamorphic/anamorphgl.py)

    The index buffer of the cylinder's triangle strip, built in
    [Anamorph.__init__] for [nR] vertices per ring and [nH] rings (the
    source fixes both at 100), and the angle counter of [Anamorph.step].
    [i is 0] and [i is nR-1] test the identity of two integers, which
    CPython makes coincide with equality up to 256, that is for
    [nR <= 257]; and the list is stored with 16-bit entries, which hold
    every index when there are at most 2^15 vertices.  [strip_range] is
    that range of [nR] and [nH]; the source's 100 and 100 lie in it. *)

Definition strip_range (nR nH : nat) : Prop :=
  (nR ≤ 257)%nat ∧ Z.of_nat nR * Z.of_nat nH ≤ 2 ^ 15.

(** One pass of the inner loop: the state is the list built so far and
    the running vertex index. *)
Definition strip_cell (nR : nat) (j i : nat) (st : list Z * Z) : list Z * Z :=
  let '(indices, index) := st in
  let indices :=
    if (0 <? j)%nat && (i =? 0)%nat then indices ++ [index] else indices in
  let indices := indices ++ [index] in
  let indices := indices ++ [index + Z.of_nat nR] in
  let indices :=
    if Z.of_nat i =? Z.of_nat nR - 1
    then indices ++ [index + Z.of_nat nR] else indices in
  (indices, index + 1).

Definition strip_indices (nR nH : nat) : list Z :=
  (foldl (λ st j, foldl (λ st i, strip_cell nR j i st) st (seq 0 nR))
         ([], 0) (seq 0 (nH - 1))).1.

(** The number of indices after [j] complete rings of the strip. *)
Definition strip_len (nR : nat) (j : nat) : Z :=
  Z.of_nat j * (2 * Z.of_nat nR + 2) - (if decide (j = 0%nat) then 0 else 1).

(** [self.t = (self.t + 1) % 360] *)
Definition step_t (t : Z) : Z := (t + 1) mod 360.

(** The two flags [RenderWindow.onKeyboard] acts on.  [PRESS],
    [KEY_ESCAPE] and [KEY_P] are constants of the windowing library.  The
    P key renders the scene to a file, which touches neither flag. *)
Record ui_state := UiState {
  exitNow : bool;
  showCylinder : bool
}.

Definition onKeyboard (PRESS KEY_ESCAPE KEY_P : Z) (key action : Z)
    (st : ui_state) : ui_state :=
  if decide (action = PRESS) then
    if decide (key = KEY_ESCAPE) then
      {| exitNow := true; showCylinder := showCylinder st |}
    else if decide (key = KEY_P) then st
    else {| exitNow := exitNow st; showCylinder := negb (showCylinder st) |}
  else st.

(** The flags after a sequence of keyboard events [(key, action)]. *)
Definition after_keys (PRESS KEY_ESCAPE KEY_P : Z) (evs : list (Z * Z))
    (st : ui_state) : ui_state :=
  foldl (λ st ev, onKeyboard PRESS KEY_ESCAPE KEY_P ev.1 ev.2 st) st evs.

(** A key press that flips [showCylinder]: any key but Escape and P. *)
Definition flips (PRESS KEY_ESCAPE KEY_P : Z) (ev : Z * Z) : bool :=
  bool_decide (ev.2 = PRESS) && negb (bool_decide (ev.1 = KEY_ESCAPE))
  && negb (bool_decide (ev.1 = KEY_P)).

(** ** Example inputs *)

(** A pixel identifiable by its number. *)
Definition px (n : Z) : pixel := PxRGB n n n.

(** One row of three and of four distinct pixels, and depth maps for them. *)
Definition ex_row3 : image := Image ModeRGB 3 1 [[px 1; px 2; px 3]].
Definition ex_depth3 : image := Image ModeL 3 1 [[PxL 0; PxL 0; PxL 20]].
Definition ex_row4 : image := Image ModeRGB 4 1 [[px 1; px 2; px 3; px 4]].
Definition ex_flat4 : image := Image ModeL 4 1 [[PxL 0; PxL 0; PxL 0; PxL 0]].

(** Two rows, the second being the row of [ex_row4] and of [ex_flat4];
    and a depth map with a sample 5 at column 1. *)
Definition ex_rows4x2 : image :=
  Image ModeRGB 4 2 [[px 7; px 7; px 8; px 8]; [px 1; px 2; px 3; px 4]].
Definition ex_depth4x2 : image :=
  Image ModeL 4 2 [[PxL 20; PxL 20; PxL 20; PxL 20]; [PxL 0; PxL 0; PxL 0; PxL 0]].
Definition ex_depth4_5 : image := Image ModeL 4 1 [[PxL 0; PxL 5; PxL 0; PxL 0]].

(** A depth map with a sample 14 at column 3; a depth map of constant
    value 10; and the row that tiling [1, 2] over four columns gives. *)
Definition ex_depth4_14 : image :=
  Image ModeL 4 1 [[PxL 0; PxL 0; PxL 0; PxL 14]].
Definition ex_depth4_10 : image :=
  Image ModeL 4 1 [[PxL 10; PxL 10; PxL 10; PxL 10]].
Definition ex_tiled4 : image := Image ModeRGB 4 1 [[px 1; px 2; px 1; px 2]].

(** A 100 x 100 tile, and a tile of two distinct pixels. *)
Definition ex_tile100 : image := new_image ModeRGB (100%nat, 100%nat).
Definition ex_tile2 : image := Image ModeRGB 2 1 [[px 1; px 2]].

(** Two stores that hold the flat depth map and the two-pixel tile at
    different places. *)
Definition ex_store1 : gmap nat image :=
  <[0%nat := ex_flat4]> (<[1%nat := ex_tile2]> (<[2%nat := ex_row4]> ∅)).
Definition ex_store2 : gmap nat image :=
  <[3%nat := ex_tile2]> (<[5%nat := ex_flat4]> ∅).

(** A tile of width 0 and height 3, and a store that holds it with the
    flat depth map. *)
Definition ex_tile_empty : image := new_image ModeRGB (0%nat, 3%nat).
Definition ex_store_empty_tile : gmap nat image :=
  <[0%nat := ex_flat4]> (<[1%nat := ex_tile_empty]> ∅).

(** A bounding box [(x0, y0, x1, y1)] that lies within the tile. *)
Definition bbox_inside (dims : nat * nat) (bbox : Z * Z * Z * Z) : Prop :=
  let '(x0, y0, x1, y1) := bbox in
  0 ≤ x0 ∧ x1 < Z.of_nat dims.1 ∧ 0 ≤ y0 ∧ y1 < Z.of_nat dims.2.

(** ** The random source, the rasteriser and the luma reduction

    [random.randint], [ImageDraw.ellipse] and [Image.convert] belong to
    the Python library and to Pillow.  The pipeline is modelled over any
    generator state [rng] with its [randint], any rasteriser
    [ellipse_covers] (which pixels a bounding box's ellipse fills) and any
    luma reduction [luma]. *)

(** The generator that always returns the lower end of the requested
    range, one of the outcomes [random.randint(a, b)] can produce at each
    call: it returns an integer N with a <= N <= b. *)
Definition randint_low (a b : Z) (g : unit) : Z * unit := (a, g).

(** The generator that always returns the upper end. *)
Definition randint_high (a b : Z) (g : unit) : Z * unit := (b, g).

(** Two instances for closed examples.  [covers_box] is the rasteriser
    that fills the whole of the bounding box; it is not Pillow's, which
    fills the inscribed ellipse only and nothing at all when the box has
    no extent.  [luma_601] is Pillow's ITU-R 601-2 luma transform as
    [convert('L')] computes it, in 16-bit fixed point with rounding:
    [(19595 R + 38470 G + 7471 B + 0x8000) >> 16]; a grey pixel keeps its
    level. *)
Definition covers_box (bbox : Z * Z * Z * Z) (x y : Z) : bool :=
  let '(x0, y0, x1, y1) := bbox in
  (x0 <=? x) && (x <=? x1) && (y0 <=? y) && (y <=? y1).

Definition luma_601 (r g b : Z) : Z :=
  Z.shiftr (r * 19595 + g * 38470 + b * 7471 + 32768) 16.

Ltac solve_wf :=
  unfold wf_image, grid_dims; simpl; repeat constructor.

Section Pipeline.

Context {rng : Type}.
Variable randint : Z → Z → rng → Z * rng.
Variable ellipse_covers : Z * Z * Z * Z → Z → Z → bool.
Variable luma : Z → Z → Z → Z.

(** [random.randint(a, b)]: [ValueError] on an empty range. *)
Definition py_randint (a b : Z) (g : rng) : option (Z * rng) :=
  if decide (a ≤ b) then Some (randint a b g) else None.

(** [draw.ellipse(bbox, fill)] *)
Definition draw_ellipse (img : image) (bbox : Z * Z * Z * Z) (fill : pixel)
    : image :=
  with_data img
    (imap (λ y row,
       imap (λ x old,
         if ellipse_covers bbox (Z.of_nat x) (Z.of_nat y) then fill else old)
         row)
       (im_data img)).

(** [dmap.convert('L')] *)
Definition to_L (p : pixel) : pixel :=
  match p with
  | PxL v => PxL v
  | PxRGB r g b => PxL (luma r g b)
  end.

Definition convert_L (im : image) : image :=
  {| im_mode := ModeL; im_width := im_width im; im_height := im_height im;
     im_data := map (map to_L) (im_data im) |}.

(** ** createRandomTile *)

(** The draws of one pass of the loop, in the order Python evaluates
    them: x, y, then the three bands of the fill; and the bounding box
    handed to [draw.ellipse]. *)
Definition random_dot (dims : nat * nat) (r : Z) (g : rng)
    : option ((Z * Z * Z * Z) * pixel * rng) :=
  '(x, g) ← py_randint 0 (Z.of_nat dims.1 - r) g;
  '(y, g) ← py_randint 0 (Z.of_nat dims.2 - r) g;
  '(cr, g) ← py_randint 0 255 g;
  '(cg, g) ← py_randint 0 255 g;
  '(cb, g) ← py_randint 0 255 g;
  Some ((x - r, y - r, x + r, y + r), PxRGB cr cg cb, g).

(** The radius: the smaller dimension floor-divided by 100. *)
Definition dot_radius (dims : nat * nat) : Z :=
  Z.min (Z.of_nat dims.1) (Z.of_nat dims.2) / 100.

Definition n_dots : nat := 1000.

Definition createRandomTile (dims : nat * nat) (g : rng)
    : option (image * rng) :=
  let img := new_image ModeRGB dims in
  let r := dot_radius dims in
  let n := n_dots in
  for_range n (λ _ '(img, g),
    '(bbox, fill, g) ← random_dot dims r g;
    Some (draw_ellipse img bbox fill, g))
    (img, g).

(** ** createAutostereogram *)

Definition createAutostereogram (dmap : image) (tile : option image) (g : rng)
    : option (image * rng) :=
  let dmap := if decide (im_mode dmap ≠ ModeL) then convert_L dmap else dmap in
  '(tile, g) ← match tile with
               | Some t => Some (t, g)
               | None => createRandomTile (100%nat, 100%nat) g
               end;
  img ← createTiledImage tile (im_size dmap);
  out ← createDepthShiftedImage dmap img (Z.of_nat (im_size tile).1);
  Some (out, g).

(** ** The object store

    Pillow images are mutable objects.  The functions above are written on
    image values; the definitions below follow the Python text on a store
    of image objects, where [img.copy()] and [Image.new] allocate,
    [paste], [draw.ellipse] and pixel assignment update an object in
    place, and [random.randint] advances the generator. *)

Record world := World {
  w_heap : gmap nat image;
  w_rng : rng
}.

Definition M (A : Type) : Type := world → option (A * world).

#[local] Instance M_ret : MRet M := λ A a w, Some (a, w).
#[local] Instance M_bind : MBind M := λ A B f m w,
  match m w with
  | Some (a, w') => f a w'
  | None => None
  end.

Definition raise {A : Type} : M A := λ _, None.

Definition lift {A : Type} (o : option A) : M A := λ w, a ← o; Some (a, w).

Definition alloc (im : image) : M nat := λ w,
  let l := fresh (dom (w_heap w)) in
  Some (l, World (<[l := im]> (w_heap w)) (w_rng w)).

Definition deref (l : nat) : M image := λ w, lift (w_heap w !! l) w.

Definition store (l : nat) (im : image) : M unit := λ w,
  Some ((), World (<[l := im]> (w_heap w)) (w_rng w)).

Definition Image_new (m : mode) (dims : nat * nat) : M nat :=
  alloc (new_image m dims).

Definition Image_copy (l : nat) : M nat := im ← deref l; alloc im.

Definition Image_size (l : nat) : M (nat * nat) :=
  im ← deref l; mret (im_size im).

Definition Image_mode (l : nat) : M mode := im ← deref l; mret (im_mode im).

Definition Image_convert_L (l : nat) : M nat :=
  im ← deref l; alloc (convert_L im).

Definition Image_paste (l tile : nat) (box : Z * Z) : M unit :=
  im ← deref l; t ← deref tile; store l (paste im t box).

Definition Draw_ellipse (l : nat) (bbox : Z * Z * Z * Z) (fill : pixel)
    : M unit :=
  im ← deref l; store l (draw_ellipse im bbox fill).

Definition pix_get (l : nat) (x y : Z) : M pixel :=
  im ← deref l; lift (getpixel (im_data im) x y).

Definition pix_put (l : nat) (x y : Z) (v : pixel) : M unit :=
  im ← deref l;
  pix ← lift (putpixel (im_data im) x y v);
  store l (with_data im pix).

Definition random_randint (a b : Z) : M Z := λ w,
  '(n, g) ← py_randint a b (w_rng w); Some (n, World (w_heap w) g).

Fixpoint for_eachM (idx : list nat) (body : nat → M unit) : M unit :=
  match idx with
  | [] => mret ()
  | i :: rest => body i ;; for_eachM rest body
  end.

Definition for_rangeM (n : nat) (body : nat → M unit) : M unit :=
  for_eachM (seq 0 n) body.

Definition createRandomTile_st (dims : nat * nat) : M nat :=
  img ← Image_new ModeRGB dims;
  let draw := img in
  let r := dot_radius dims in
  let n := n_dots in
  for_rangeM n (λ _,
    x ← random_randint 0 (Z.of_nat dims.1 - r);
    y ← random_randint 0 (Z.of_nat dims.2 - r);
    cr ← random_randint 0 255;
    cg ← random_randint 0 255;
    cb ← random_randint 0 255;
    let fill := PxRGB cr cg cb in
    Draw_ellipse draw (x - r, y - r, x + r, y + r) fill);;
  mret img.

Definition createTiledImage_st (tile : nat) (dims : nat * nat) : M nat :=
  img ← Image_new ModeRGB dims;
  let '(W, H) := dims in
  '(w, h) ← Image_size tile;
  cols ← lift (tile_count W w);
  rows ← lift (tile_count H h);
  for_rangeM (Z.to_nat rows) (λ i,
    for_rangeM (Z.to_nat cols) (λ j,
      Image_paste img tile (Z.of_nat j * Z.of_nat w, Z.of_nat i * Z.of_nat h)));;
  mret img.

Definition createDepthShiftedImage_st (dmap img : nat) (period : Z) : M nat :=
  dsize ← Image_size dmap;
  isize ← Image_size img;
  if decide (dsize = isize) then
    sImg ← Image_copy img;
    let pixD := dmap in
    let pixS := sImg in
    '(cols, rows) ← Image_size sImg;
    for_rangeM rows (λ j,
      for_rangeM cols (λ i,
        p ← pix_get pixD (Z.of_nat i) (Z.of_nat j);
        d ← lift (number_of p);
        xpos ← lift (xpos_of period i d);
        if in_bounds xpos cols then
          v ← pix_get pixS (int_of xpos) (Z.of_nat j);
          pix_put pixS (Z.of_nat i) (Z.of_nat j) v
        else mret ()));;
    mret sImg
  else raise.

Definition createAutostereogram_st (dmap : nat) (tile : option nat) : M nat :=
  m ← Image_mode dmap;
  dmap ← (if decide (m ≠ ModeL) then Image_convert_L dmap else mret dmap);
  tile ← match tile with
         | Some t => mret t
         | None => createRandomTile_st (100%nat, 100%nat)
         end;
  dsize ← Image_size dmap;
  img ← createTiledImage_st tile dsize;
  tsize ← Image_size tile;
  createDepthShiftedImage_st dmap img (Z.of_nat tsize.1).

(** What a run of the store model hands back: the pixels of the returned
    object and the state of the generator. *)
Definition result_of (r : option (nat * world)) : option (image * rng) :=
  '(l, w) ← r; im ← w_heap w !! l; Some (im, w_rng w).

(** The tile argument of a run: an object of the store holding [t], or
    none. *)
Definition tile_arg (h : gmap nat image) (tl : option nat) (t : option image)
    : Prop :=
  match tl, t with
  | Some l, Some im => h !! l = Some im
  | None, None => True
  | _, _ => False
  end.

(** * Properties *)

Arguments xpos_of : simpl never.
Arguments in_bounds : simpl never.
Arguments int_of : simpl never.
Arguments writes : simpl never.
Arguments src_col : simpl never.
Arguments tenths : simpl never.

(** ** Arithmetic of the column position *)

Lemma Qltb_0_l n p : Qltb 0 (Qmake n p) = (0 <? n).
Proof.
  unfold Qltb, Qle_bool. simpl. rewrite Z.mul_1_r.
  destruct (Z.leb_spec n 0), (Z.ltb_spec 0 n); simpl; auto; lia.
Qed.

Lemma Qltb_Z_r n p c : Qltb (Qmake n p) (inject_Z c) = (n <? c * Zpos p).
Proof.
  unfold Qltb, Qle_bool. simpl. rewrite Z.mul_1_r.
  destruct (Z.leb_spec (c * Z.pos p) n), (Z.ltb_spec n (c * Z.pos p)); simpl; auto; lia.
Qed.

Lemma xpos_of_tenths period i d :
  xpos_of period i d = Some (Qmake (tenths period i d) 10).
Proof.
  unfold xpos_of, truediv, tenths. simpl. f_equal.
  unfold Qplus, Qdiv, Qmult, Qinv. simpl. f_equal. lia.
Qed.

Lemma in_bounds_writes period i d cols :
  in_bounds (Qmake (tenths period i d) 10) cols = writes period cols i d.
Proof.
  unfold in_bounds, writes. rewrite Qltb_0_l, Qltb_Z_r.
  f_equal. f_equal. lia.
Qed.

Lemma int_of_tenths period i d :
  0 < tenths period i d →
  int_of (Qmake (tenths period i d) 10) = src_col period i d.
Proof.
  intros Hpos. unfold int_of, src_col. simpl.
  rewrite Z.quot_div_nonneg by lia.
  unfold tenths. rewrite Z.mul_comm, Z.div_add_l by lia. reflexivity.
Qed.

Lemma writes_src_range period cols i d :
  writes period cols i d = true →
  0 < tenths period i d ∧ 0 ≤ src_col period i d < Z.of_nat cols.
Proof.
  unfold writes, src_col, tenths. intros [H1 H2]%andb_prop.
  apply Z.ltb_lt in H1, H2.
  pose proof (Z.div_mod d 10 ltac:(lia)).
  pose proof (Z.mod_pos_bound d 10 ltac:(lia)).
  lia.
Qed.

Lemma getpixel_nat pix (i j : nat) :
  getpixel pix (Z.of_nat i) (Z.of_nat j) = (row ← pix !! j; row !! i).
Proof.
  unfold getpixel.
  replace (0 <=? Z.of_nat i) with true by (symmetry; apply Z.leb_le; lia).
  replace (0 <=? Z.of_nat j) with true by (symmetry; apply Z.leb_le; lia).
  simpl. by rewrite !Nat2Z.id.
Qed.

Lemma mode_L_number (p : pixel) :
  pixel_has_mode ModeL p → ∃ d, p = PxL d.
Proof. destruct p; simpl; [eauto | done]. Qed.

Lemma shift_cell_spec period cols drow i srow d :
  drow !! i = Some (PxL d) →
  shift_cell period cols drow i srow =
    if writes period cols i d then
      v ← srow !! Z.to_nat (src_col period i d);
      if decide (i < length srow)%nat then Some (<[i := v]> srow) else None
    else Some srow.
Proof.
  intros Hd. unfold shift_cell. rewrite Hd. cbn [mbind option_bind number_of].
  rewrite xpos_of_tenths. cbn [mbind option_bind]. rewrite in_bounds_writes.
  destruct (writes period cols i d) eqn:Hw; [|done].
  apply writes_src_range in Hw as [Hpos Hsrc].
  rewrite int_of_tenths by done.
  replace (0 <=? src_col period i d) with true by (symmetry; apply Z.leb_le; lia).
  done.
Qed.

Lemma shift_pixel_spec pixD period cols j i pixS d :
  getpixel pixD (Z.of_nat i) (Z.of_nat j) = Some (PxL d) →
  shift_pixel pixD period cols j i pixS =
    if writes period cols i d then
      v ← getpixel pixS (src_col period i d) (Z.of_nat j);
      putpixel pixS (Z.of_nat i) (Z.of_nat j) v
    else Some pixS.
Proof.
  intros Hd. unfold shift_pixel. rewrite Hd. cbn [mbind option_bind number_of].
  rewrite xpos_of_tenths. cbn [mbind option_bind]. rewrite in_bounds_writes.
  destruct (writes period cols i d) eqn:Hw; [|done].
  apply writes_src_range in Hw as [Hpos Hsrc].
  by rewrite int_of_tenths.
Qed.

Lemma shift_pixel_row pixD pixS period cols j i drow srow :
  pixD !! j = Some drow → pixS !! j = Some srow →
  shift_pixel pixD period cols j i pixS =
    (srow' ← shift_cell period cols drow i srow; Some (<[j := srow']> pixS)).
Proof.
  intros HD HS. unfold shift_pixel, shift_cell.
  rewrite getpixel_nat, HD. cbn [mbind option_bind].
  destruct (drow !! i ≫= number_of) as [d|]; [cbn [mbind option_bind]|done].
  destruct (xpos_of period i d) as [xpos|]; [cbn [mbind option_bind]|done].
  destruct (in_bounds xpos cols).
  - unfold getpixel, putpixel.
    replace (0 <=? Z.of_nat i) with true by (symmetry; apply Z.leb_le; lia).
    replace (0 <=? Z.of_nat j) with true by (symmetry; apply Z.leb_le; lia).
    rewrite !Nat2Z.id, HS. simpl.
    destruct (0 <=? int_of xpos); [simpl|done].
    destruct (srow !! Z.to_nat (int_of xpos)); [simpl|done].
    by destruct (decide (i < length srow)%nat).
  - cbn [mbind option_bind]. by rewrite list_insert_id.
Qed.

Lemma for_each_row pixD period cols j drow idx : ∀ pixS srow,
  pixD !! j = Some drow → pixS !! j = Some srow →
  for_each idx (shift_pixel pixD period cols j) pixS =
    (srow' ← for_each idx (shift_cell period cols drow) srow;
     Some (<[j := srow']> pixS)).
Proof.
  induction idx as [|i idx IH]; intros pixS srow HD HS; simpl.
  - by rewrite list_insert_id.
  - rewrite (shift_pixel_row _ _ _ _ _ _ _ _ HD HS).
    destruct (shift_cell period cols drow i srow) as [srow1|]; [cbn [mbind option_bind]|done].
    rewrite (IH _ srow1 HD).
    + destruct (for_each idx _ srow1); [cbn [mbind option_bind]|done].
      by rewrite list_insert_insert_eq.
    + apply list_lookup_insert_eq. by eapply lookup_lt_Some.
Qed.

(** Columns [a .. a+k-1] of one row, processed from left to right. *)
Lemma shift_cells_spec period cols drow k : ∀ a srow,
  length drow = cols → Forall (pixel_has_mode ModeL) drow →
  length srow = cols → (a + k ≤ cols)%nat →
  ∃ out,
    for_each (seq a k) (shift_cell period cols drow) srow = Some out ∧
    length out = cols ∧
    (∀ i, (i < a ∨ a + k ≤ i)%nat → out !! i = srow !! i) ∧
    (∀ i d, (a ≤ i < a + k)%nat → drow !! i = Some (PxL d) →
       out !! i =
         if writes period cols i d then
           if decide (src_col period i d < Z.of_nat i)
           then out !! Z.to_nat (src_col period i d)
           else srow !! Z.to_nat (src_col period i d)
         else srow !! i).
Proof.
  induction k as [|k IH]; intros a srow HD HL HS Hak.
  - exists srow. simpl. split_and!; [done|done|done|]. intros; lia.
  - assert (Ha : (a < length drow)%nat) by lia.
    destruct (lookup_lt_is_Some_2 _ _ Ha) as [p Hp].
    destruct (mode_L_number p) as [d ->].
    { eapply Forall_lookup_1; eauto. }
    simpl. rewrite (shift_cell_spec _ _ _ _ _ _ Hp).
    destruct (writes period cols a d) eqn:Hw.
    + pose proof (writes_src_range _ _ _ _ Hw) as [_ Hsrc].
      destruct (lookup_lt_is_Some_2 srow (Z.to_nat (src_col period a d)))
        as [v Hv]; [lia|].
      rewrite Hv. cbn [mbind option_bind].
      rewrite decide_True by lia. cbn [mbind option_bind].
      destruct (IH (S a) (<[a := v]> srow)) as (out & Hrun & Hlen & Hout & Hin);
        [done|done|by rewrite length_insert|lia|].
      exists out. split_and!; [done|done|..].
      * intros i Hi. rewrite Hout by lia.
        apply list_lookup_insert_ne. lia.
      * intros i d' Hi Hd'.
        destruct (decide (i = a)) as [->|Hne].
        -- assert (d' = d) as -> by congruence.
           rewrite Hw, Hout by lia.
           rewrite list_lookup_insert_eq by lia.
           destruct (decide (src_col period a d < Z.of_nat a)); [|done].
           rewrite Hout by lia. rewrite list_lookup_insert_ne by lia. done.
        -- rewrite (Hin i d') by (done || lia).
           destruct (writes period cols i d') eqn:Hw'.
           ++ destruct (decide (src_col period i d' < Z.of_nat i)); [done|].
              pose proof (writes_src_range _ _ _ _ Hw') as [_ Hsrc'].
              apply list_lookup_insert_ne. lia.
           ++ by apply list_lookup_insert_ne.
    + destruct (IH (S a) srow) as (out & Hrun & Hlen & Hout & Hin);
        [done|done|done|lia|].
      exists out. split_and!; [done|done|..].
      * intros i Hi. apply Hout. lia.
      * intros i d' Hi Hd'.
        destruct (decide (i = a)) as [->|Hne].
        -- assert (d' = d) as -> by congruence.
           rewrite Hw. apply Hout. lia.
        -- apply Hin; [lia|done].
Qed.

Lemma shift_cell_Forall (P : pixel → Prop) period cols drow i srow srow' :
  Forall P srow → shift_cell period cols drow i srow = Some srow' →
  Forall P srow'.
Proof.
  intros HP. unfold shift_cell. intros Hrun.
  destruct (drow !! i ≫= number_of) as [d|]; [|done].
  cbn [mbind option_bind] in Hrun.
  destruct (xpos_of period i d) as [xpos|]; [|done].
  cbn [mbind option_bind] in Hrun.
  destruct (in_bounds xpos cols); [|by simplify_eq].
  destruct (0 <=? int_of xpos); [|done].
  destruct (srow !! Z.to_nat (int_of xpos)) as [v|] eqn:Hv; [|done].
  cbn [mbind option_bind] in Hrun.
  destruct (decide (i < length srow)%nat); [|done].
  simplify_eq. apply Forall_insert; [done|].
  eapply Forall_lookup_1; eauto.
Qed.

Lemma shift_cells_Forall (P : pixel → Prop) period cols drow idx :
  ∀ srow srow', Forall P srow →
  for_each idx (shift_cell period cols drow) srow = Some srow' →
  Forall P srow'.
Proof.
  induction idx as [|i idx IH]; intros srow srow' HP Hrun; simpl in Hrun.
  - by simplify_eq.
  - destruct (shift_cell period cols drow i srow) as [s1|] eqn:H1; [|done].
    cbn [mbind option_bind] in Hrun.
    eapply IH; [|done]. by eapply shift_cell_Forall.
Qed.

(** Rows [b .. b+k-1], each handled by one pass of the inner loop. *)
Lemma shift_rows_spec pixD period cols H k : ∀ b pixS,
  grid_dims cols H pixD → Forall (Forall (pixel_has_mode ModeL)) pixD →
  grid_dims cols H pixS → (b + k ≤ H)%nat →
  ∃ out,
    for_each (seq b k)
      (λ j, for_range cols (shift_pixel pixD period cols j)) pixS = Some out ∧
    grid_dims cols H out ∧
    (∀ j, (j < b ∨ b + k ≤ j)%nat → out !! j = pixS !! j) ∧
    (∀ j, (b ≤ j < b + k)%nat →
       ∃ drow srow orow,
         pixD !! j = Some drow ∧ pixS !! j = Some srow ∧
         shift_row period cols drow srow = Some orow ∧
         out !! j = Some orow).
Proof.
  induction k as [|k IH]; intros b pixS HD HL HS Hbk.
  - exists pixS. simpl. split_and!; [done|done|done|]. intros; lia.
  - destruct HD as [HDlen HDrows]. destruct HS as [HSlen HSrows].
    destruct (lookup_lt_is_Some_2 pixD b) as [drow Hdrow]; [lia|].
    destruct (lookup_lt_is_Some_2 pixS b) as [srow Hsrow]; [lia|].
    pose proof (Forall_lookup_1 _ _ _ _ HDrows Hdrow) as Hdl.
    pose proof (Forall_lookup_1 _ _ _ _ HSrows Hsrow) as Hsl.
    pose proof (Forall_lookup_1 _ _ _ _ HL Hdrow) as Hdm.
    simpl in Hdl, Hsl.
    destruct (shift_cells_spec period cols drow cols 0 srow)
      as (orow & Hrow & Horow & _ & _); [done|done|done|lia|].
    assert (Hstep : for_range cols (shift_pixel pixD period cols b) pixS
                    = Some (<[b := orow]> pixS)).
    { unfold for_range.
      by rewrite (for_each_row _ _ _ _ _ _ _ _ Hdrow Hsrow), Hrow. }
    destruct (IH (S b) (<[b := orow]> pixS)) as (out & Hrun & Hdims & Hout & Hin).
    { done. } { done. }
    { split; [by rewrite length_insert|]. by apply Forall_insert. }
    { lia. }
    exists out. split_and!; [|done|..].
    + cbn [seq for_each]. by rewrite Hstep.
    + intros j Hj. rewrite Hout by lia. apply list_lookup_insert_ne. lia.
    + intros j Hj. destruct (decide (j = b)) as [->|Hne].
      * exists drow, srow, orow. split_and!; [done|done|done|].
        rewrite Hout by lia. apply list_lookup_insert_eq. lia.
      * destruct (Hin j) as (dr & sr & or & H1 & H2 & H3 & H4); [lia|].
        exists dr, sr, or. split_and!; [done| |done|done].
        by rewrite list_lookup_insert_ne in H2.
Qed.

(** What [createDepthShiftedImage] returns, pixel by pixel. *)
Lemma createDepthShiftedImage_spec dmap img period :
  wf_image dmap → wf_image img →
  im_size dmap = im_size img → im_mode dmap = ModeL →
  ∃ out,
    createDepthShiftedImage dmap img period = Some out ∧
    im_mode out = im_mode img ∧ im_size out = im_size img ∧ wf_image out ∧
    (∀ i j d, pixel_at dmap i j = Some (PxL d) →
       pixel_at out i j =
         if writes period (im_width img) i d then
           if decide (src_col period i d < Z.of_nat i)
           then pixel_at out (Z.to_nat (src_col period i d)) j
           else pixel_at img (Z.to_nat (src_col period i d)) j
         else pixel_at img i j).
Proof.
  intros [HDd HDm] [HSd HSm] Hsize HL.
  unfold createDepthShiftedImage. rewrite decide_True by done.
  unfold im_size in *. simplify_eq. rewrite HL in HDm.
  replace (im_width dmap) with (im_width img) in * by congruence.
  replace (im_height dmap) with (im_height img) in * by congruence.
  destruct (shift_rows_spec (im_data dmap) period (im_width img)
              (im_height img) (im_height img) 0 (im_data img))
    as (out & Hrun & Hdims & _ & Hrows); [done|done|done|lia|].
  unfold for_range at 1. rewrite Hrun. cbn [mbind option_bind].
  eexists. split; [done|]. split_and!; [done|done|..].
  - split; [done|]. simpl.
    apply Forall_lookup_2. intros j row Hrow.
    destruct (Hrows j) as (dr & sr & or & H1 & H2 & H3 & H4).
    { apply lookup_lt_Some in Hrow. destruct Hdims. lia. }
    assert (or = row) as -> by congruence.
    eapply shift_cells_Forall; [|exact H3].
    eapply Forall_lookup_1; eauto.
  - intros i j d Hd. unfold pixel_at in *. simpl.
    destruct (im_data dmap !! j) as [drow|] eqn:Hdrow; [|done].
    cbn [mbind option_bind] in Hd.
    destruct (Hrows j) as (dr & sr & or & H1 & H2 & H3 & H4).
    { apply lookup_lt_Some in Hdrow. destruct HDd. lia. }
    assert (dr = drow) as -> by congruence.
    rewrite H2, H4. cbn [mbind option_bind].
    destruct HDd as [_ HDrows]. destruct HSd as [_ HSrows].
    pose proof (Forall_lookup_1 _ _ _ _ HDrows Hdrow) as Hdl.
    pose proof (Forall_lookup_1 _ _ _ _ HSrows H2) as Hsl.
    pose proof (Forall_lookup_1 _ _ _ _ HDm Hdrow) as Hdm.
    simpl in Hdl, Hsl.
    destruct (shift_cells_spec period (im_width img) drow (im_width img) 0 sr)
      as (orow & Hrow & _ & _ & Hcells); [done|done|done|lia|].
    unfold shift_row, for_range in H3.
    assert (orow = or) as -> by congruence.
    apply Hcells; [|done].
    apply lookup_lt_Some in Hd. lia.
Qed.

(** ** The resampler: claims *)

Lemma writes_false_nonpos period cols i d :
  tenths period i d ≤ 0 → writes period cols i d = false.
Proof.
  intros H. unfold writes.
  replace (0 <? tenths period i d) with false; [done|].
  symmetry. apply Z.ltb_ge. lia.
Qed.

Lemma writes_true_src period cols i d :
  0 < src_col period i d < Z.of_nat cols → writes period cols i d = true.
Proof.
  unfold writes, src_col, tenths. intros Hsrc.
  pose proof (Z.div_mod d 10 ltac:(lia)).
  pose proof (Z.mod_pos_bound d 10 ltac:(lia)).
  apply andb_true_intro. split; apply Z.ltb_lt; lia.
Qed.

Lemma pixel_at_wf (im : image) (i j : nat) :
  wf_image im → (i < im_width im)%nat → (j < im_height im)%nat →
  ∃ p, pixel_at im i j = Some p.
Proof.
  intros [[Hlen Hrows] _] Hi Hj. unfold pixel_at.
  destruct (lookup_lt_is_Some_2 (im_data im) j) as [row Hrow]; [lia|].
  pose proof (Forall_lookup_1 _ _ _ _ Hrows Hrow) as Hl. simpl in Hl.
  rewrite Hrow. cbn [mbind option_bind].
  apply lookup_lt_is_Some_2. lia.
Qed.

(** C1 (as amended): a column [i < period] whose depth sample is at most
    [10 * (period - i)], so that [xpos <= 0], keeps the value of the tiled
    image; and the resampler returns for all well-formed inputs of equal
    size. *)
Theorem reference_strip_small_depth (dmap img : image) (period : Z) :
  wf_image dmap → wf_image img →
  im_size dmap = im_size img → im_mode dmap = ModeL →
  ∃ out,
    createDepthShiftedImage dmap img period = Some out ∧
    ∀ (i j : nat) (d : Z),
      pixel_at dmap i j = Some (PxL d) →
      Z.of_nat i < period →
      d ≤ 10 * (period - Z.of_nat i) →
      pixel_at out i j = pixel_at img i j.
Proof.
  intros HD HS Hsize HL.
  destruct (createDepthShiftedImage_spec dmap img period HD HS Hsize HL)
    as (out & Hrun & _ & _ & _ & Hpix).
  exists out. split; [done|].
  intros i j d Hd Hi Hsmall.
  rewrite (Hpix i j d Hd), writes_false_nonpos; [done|].
  unfold tenths. lia.
Qed.

Lemma reference_strip_small_depth_witness :
  ∃ out,
    createDepthShiftedImage ex_flat4 ex_row4 2 = Some out ∧
    ∀ (i j : nat) (d : Z),
      pixel_at ex_flat4 i j = Some (PxL d) →
      Z.of_nat i < 2 →
      d ≤ 10 * (2 - Z.of_nat i) →
      pixel_at out i j = pixel_at ex_row4 i j.
Proof.
  apply (reference_strip_small_depth ex_flat4 ex_row4 2);
    [solve_wf | solve_wf | reflexivity | reflexivity].
Defined.

(** C1 as stated fails: with period 3 and depth 20 at column 2, the pass
    assigns column 2 from column 1, although 2 < period. *)
Lemma reference_strip_overwritten :
  wf_image ex_depth3 ∧ wf_image ex_row3 ∧
  im_size ex_depth3 = im_size ex_row3 ∧
  ∃ out,
    createDepthShiftedImage ex_depth3 ex_row3 3 = Some out ∧
    (2 < 3)%nat ∧
    pixel_at out 2 0 = Some (px 2) ∧
    pixel_at ex_row3 2 0 = Some (px 3) ∧
    pixel_at out 2 0 ≠ pixel_at ex_row3 2 0.
Proof.
  split; [solve_wf|]. split; [solve_wf|]. split; [reflexivity|].
  eexists. split; [vm_compute; reflexivity|].
  split; [lia|]. split; [reflexivity|]. split; [reflexivity|].
  vm_compute. discriminate.
Qed.

Lemma truediv_10 (d : Z) : truediv d 10 = Some (d # 10).
Proof.
  unfold truediv. rewrite decide_False by lia.
  unfold Qdiv, Qmult, Qinv. simpl. by rewrite Z.mul_1_r.
Qed.

Lemma tenth_is_integer (d : Z) :
  (d # 10 == inject_Z (d / 10))%Q ↔ d mod 10 = 0.
Proof.
  unfold Qeq. simpl.
  pose proof (Z.div_mod d 10 ltac:(lia)).
  pose proof (Z.mod_pos_bound d 10 ltac:(lia)).
  split; lia.
Qed.

Lemma xpos_tenths_sum (period : Z) (i : nat) (d : Z) :
  (tenths period i d # 10 == inject_Z (Z.of_nat i - period) + (d # 10))%Q.
Proof. unfold Qeq, Qplus, tenths. simpl. lia. Qed.

Lemma pixel_at_getpixel (im : image) (i j : nat) :
  getpixel (im_data im) (Z.of_nat i) (Z.of_nat j) = pixel_at im i j.
Proof. by rewrite getpixel_nat. Qed.

(** C2 (as amended): [xshift] is the quotient [d / 10], not rounded; it
    is an integer only when 10 divides [d].  The guard is tested on the
    unrounded [xpos = i - period + d / 10] and passes exactly when
    [0 < 10 (i - period) + d < 10 W].  At a pixel that passes it the
    accessor drops the fraction: the column read is
    [i - period + floor(d / 10)], with [floor(d / 10)] in [0, 25] for a
    sample in [0, 255], it lies in [0, W), and the output pixel is the
    buffer's value there (the output's own when the column lies to the
    left of [i], the input's otherwise).  A pixel that fails the guard
    keeps the input's value. *)
Theorem depth_displacement (dmap img : image) (period : Z) :
  wf_image dmap → wf_image img →
  im_size dmap = im_size img → im_mode dmap = ModeL →
  ∃ out,
    createDepthShiftedImage dmap img period = Some out ∧
    ∀ (i j : nat) (d : Z),
      pixel_at dmap i j = Some (PxL d) → 0 ≤ d ≤ 255 →
      0 ≤ d / 10 ≤ 25 ∧
      truediv d 10 = Some (d # 10) ∧
      ((d # 10 == inject_Z (d / 10))%Q ↔ d mod 10 = 0) ∧
      ∃ xpos,
        xpos_of period i d = Some xpos ∧
        (xpos == inject_Z (Z.of_nat i - period) + (d # 10))%Q ∧
        (in_bounds xpos (im_width img) = true ↔
           0 < 10 * (Z.of_nat i - period) + d < 10 * Z.of_nat (im_width img)) ∧
        (in_bounds xpos (im_width img) = true →
           int_of xpos = Z.of_nat i - period + d / 10 ∧
           0 ≤ Z.of_nat i - period + d / 10 < Z.of_nat (im_width img) ∧
           (∀ pixS : grid,
              shift_pixel (im_data dmap) period (im_width img) j i pixS =
                (v ← getpixel pixS (Z.of_nat i - period + d / 10) (Z.of_nat j);
                 putpixel pixS (Z.of_nat i) (Z.of_nat j) v)) ∧
           pixel_at out i j =
             if decide (Z.of_nat i - period + d / 10 < Z.of_nat i)
             then pixel_at out (Z.to_nat (Z.of_nat i - period + d / 10)) j
             else pixel_at img (Z.to_nat (Z.of_nat i - period + d / 10)) j) ∧
        (in_bounds xpos (im_width img) = false →
           (∀ pixS : grid,
              shift_pixel (im_data dmap) period (im_width img) j i pixS
              = Some pixS) ∧
           pixel_at out i j = pixel_at img i j).
Proof.
  intros HD HS Hsize HL.
  destruct (createDepthShiftedImage_spec dmap img period HD HS Hsize HL)
    as (out & Hrun & _ & _ & _ & Hpix).
  exists out. split; [done|].
  intros i j d Hd Hrange.
  split.
  { split; [apply Z.div_pos; lia|].
    assert (d / 10 < 26) by (apply Z.div_lt_upper_bound; lia). lia. }
  split; [apply truediv_10|]. split; [apply tenth_is_integer|].
  exists (tenths period i d # 10).
  split; [apply xpos_of_tenths|]. split; [apply xpos_tenths_sum|].
  rewrite in_bounds_writes.
  assert (Hget : getpixel (im_data dmap) (Z.of_nat i) (Z.of_nat j)
                 = Some (PxL d)) by (by rewrite pixel_at_getpixel).
  split; [|split].
  - unfold writes, tenths. rewrite andb_true_iff, !Z.ltb_lt. done.
  - intros Hw. pose proof (writes_src_range _ _ _ _ Hw) as [Hpos Hsrc].
    unfold src_col in Hsrc.
    split; [by rewrite int_of_tenths|]. split; [done|]. split.
    + intros pixS. by rewrite (shift_pixel_spec _ _ _ _ _ _ _ Hget), Hw.
    + by rewrite (Hpix i j d Hd), Hw.
  - intros Hw. split.
    + intros pixS. by rewrite (shift_pixel_spec _ _ _ _ _ _ _ Hget), Hw.
    + by rewrite (Hpix i j d Hd), Hw.
Qed.

Lemma depth_displacement_witness :
  (xpos_of 3 3 14 = Some (14 # 10) ∧
   in_bounds (14 # 10) (im_width ex_row4) = true ∧
   int_of (14 # 10) = Z.of_nat 3 - 3 + 14 / 10 ∧
   createDepthShiftedImage ex_depth4_14 ex_row4 3
     = Some (Image ModeRGB 4 1 [[px 1; px 2; px 3; px 2]])) ∧
  ∃ out,
    createDepthShiftedImage ex_depth4_14 ex_row4 3 = Some out ∧
    ∀ (i j : nat) (d : Z),
      pixel_at ex_depth4_14 i j = Some (PxL d) → 0 ≤ d ≤ 255 →
      0 ≤ d / 10 ≤ 25 ∧
      truediv d 10 = Some (d # 10) ∧
      ((d # 10 == inject_Z (d / 10))%Q ↔ d mod 10 = 0) ∧
      ∃ xpos,
        xpos_of 3 i d = Some xpos ∧
        (xpos == inject_Z (Z.of_nat i - 3) + (d # 10))%Q ∧
        (in_bounds xpos (im_width ex_row4) = true ↔
           0 < 10 * (Z.of_nat i - 3) + d < 10 * Z.of_nat (im_width ex_row4)) ∧
        (in_bounds xpos (im_width ex_row4) = true →
           int_of xpos = Z.of_nat i - 3 + d / 10 ∧
           0 ≤ Z.of_nat i - 3 + d / 10 < Z.of_nat (im_width ex_row4) ∧
           (∀ pixS : grid,
              shift_pixel (im_data ex_depth4_14) 3 (im_width ex_row4) j i pixS =
                (v ← getpixel pixS (Z.of_nat i - 3 + d / 10) (Z.of_nat j);
                 putpixel pixS (Z.of_nat i) (Z.of_nat j) v)) ∧
           pixel_at out i j =
             if decide (Z.of_nat i - 3 + d / 10 < Z.of_nat i)
             then pixel_at out (Z.to_nat (Z.of_nat i - 3 + d / 10)) j
             else pixel_at ex_row4 (Z.to_nat (Z.of_nat i - 3 + d / 10)) j) ∧
        (in_bounds xpos (im_width ex_row4) = false →
           (∀ pixS : grid,
              shift_pixel (im_data ex_depth4_14) 3 (im_width ex_row4) j i pixS
              = Some pixS) ∧
           pixel_at out i j = pixel_at ex_row4 i j).
Proof.
  split.
  - split; [reflexivity|]. split; [reflexivity|]. split; reflexivity.
  - apply (depth_displacement ex_depth4_14 ex_row4 3);
      [solve_wf | solve_wf | reflexivity | reflexivity].
Defined.

(** C2 as stated fails: the displacement is not rounded to an integer
    before the guard.  With period 1 and depth 5 at column 1, [xshift] is
    1/2 and not [floor(5 / 10) = 0]; [xpos = 1/2] passes the guard, which
    the integer position [1 - 1 + 0 = 0] would not, and the pass assigns
    column 1 from column 0. *)
Lemma depth_displacement_not_rounded :
  wf_image ex_depth4_5 ∧ wf_image ex_row4 ∧
  im_size ex_depth4_5 = im_size ex_row4 ∧
  pixel_at ex_depth4_5 1 0 = Some (PxL 5) ∧ 0 ≤ 5 ≤ 255 ∧
  truediv 5 10 = Some (5 # 10) ∧
  ¬ (5 # 10 == inject_Z (5 / 10))%Q ∧
  xpos_of 1 1 5 = Some (5 # 10) ∧
  in_bounds (5 # 10) (im_width ex_row4) = true ∧
  ¬ (0 < Z.of_nat 1 - 1 + 5 / 10) ∧
  ∃ out,
    createDepthShiftedImage ex_depth4_5 ex_row4 1 = Some out ∧
    pixel_at out 1 0 = Some (px 1) ∧
    pixel_at ex_row4 1 0 = Some (px 2) ∧
    pixel_at out 1 0 ≠ pixel_at ex_row4 1 0.
Proof.
  split; [solve_wf|]. split; [solve_wf|]. split; [reflexivity|].
  split; [reflexivity|]. split; [lia|]. split; [reflexivity|].
  split; [by vm_compute|]. split; [reflexivity|]. split; [reflexivity|].
  split; [by vm_compute|].
  eexists. split; [vm_compute; reflexivity|].
  split; [reflexivity|]. split; [reflexivity|].
  vm_compute. discriminate.
Qed.

(** C3: a column assigned from a column to its left receives the value
    that column has at the end of the pass, that is, after its own
    assignment; and on a flat depth map with period 1 the in-place pass
    and the pass reading from a copy return different images. *)
Theorem in_place_pass_sees_earlier_writes :
  (∀ (dmap img : image) (period : Z),
     wf_image dmap → wf_image img →
     im_size dmap = im_size img → im_mode dmap = ModeL →
     ∃ out,
       createDepthShiftedImage dmap img period = Some out ∧
       ∀ (i j : nat) (d : Z),
         pixel_at dmap i j = Some (PxL d) →
         writes period (im_width img) i d = true →
         src_col period i d < Z.of_nat i →
         pixel_at out i j = pixel_at out (Z.to_nat (src_col period i d)) j) ∧
  (wf_image ex_flat4 ∧ wf_image ex_row4 ∧
   createDepthShiftedImage ex_flat4 ex_row4 1
     = Some (Image ModeRGB 4 1 [[px 1; px 2; px 2; px 2]]) ∧
   createDepthShiftedImage_from_copy ex_flat4 ex_row4 1
     = Some (Image ModeRGB 4 1 [[px 1; px 2; px 2; px 3]]) ∧
   createDepthShiftedImage ex_flat4 ex_row4 1
     ≠ createDepthShiftedImage_from_copy ex_flat4 ex_row4 1).
Proof.
  split.
  - intros dmap img period HD HS Hsize HL.
    destruct (createDepthShiftedImage_spec dmap img period HD HS Hsize HL)
      as (out & Hrun & _ & _ & _ & Hpix).
    exists out. split; [done|].
    intros i j d Hd Hw Hsrc.
    rewrite (Hpix i j d Hd), Hw. by rewrite decide_True.
  - split; [solve_wf|]. split; [solve_wf|].
    split; [vm_compute; reflexivity|]. split; [vm_compute; reflexivity|].
    vm_compute. discriminate.
Qed.

Lemma in_place_pass_sees_earlier_writes_witness :
  ∃ out,
    createDepthShiftedImage ex_flat4 ex_row4 1 = Some out ∧
    ∀ (i j : nat) (d : Z),
      pixel_at ex_flat4 i j = Some (PxL d) →
      writes 1 (im_width ex_row4) i d = true →
      src_col 1 i d < Z.of_nat i →
      pixel_at out i j = pixel_at out (Z.to_nat (src_col 1 i d)) j.
Proof.
  apply (proj1 in_place_pass_sees_earlier_writes ex_flat4 ex_row4 1);
    [solve_wf | solve_wf | reflexivity | reflexivity].
Defined.

(** The pass on a row of constant depth, with a positive step
    [period - floor(d / 10)]: every column ends with the input's value
    at its [uniform_origin]. *)
Lemma uniform_origin_reaches (out img : image) (period d : Z) (W j : nat) :
  0 < period - d / 10 →
  (∀ i, (i < W)%nat →
     pixel_at out i j =
       if writes period W i d then
         if decide (src_col period i d < Z.of_nat i)
         then pixel_at out (Z.to_nat (src_col period i d)) j
         else pixel_at img (Z.to_nat (src_col period i d)) j
       else pixel_at img i j) →
  ∀ i, (i < W)%nat →
    0 ≤ uniform_origin period d i ≤ Z.of_nat i ∧
    pixel_at out i j = pixel_at img (Z.to_nat (uniform_origin period d i)) j.
Proof.
  intros Hk Hstep i. induction i as [i IH] using lt_wf_ind. intros Hi.
  pose proof (Z.div_mod d 10 ltac:(lia)) as Hdiv.
  pose proof (Z.mod_pos_bound d 10 ltac:(lia)) as Hmod.
  rewrite (Hstep i Hi). unfold uniform_origin, writes, src_col, tenths.
  cbn zeta. rewrite (decide_False (P := period - d / 10 ≤ 0)) by lia.
  set (k := period - d / 10) in *.
  set (m := if decide (d mod 10 = 0) then k else k - 1).
  assert (Hm : k - 1 ≤ m ≤ k) by (unfold m; case_decide; lia).
  assert (Hm0 : d mod 10 = 0 → m = k) by (intros; unfold m; by rewrite decide_True).
  assert (Hm1 : d mod 10 ≠ 0 → m = k - 1)
    by (intros; unfold m; by rewrite decide_False).
  destruct (decide (Z.of_nat i ≤ m)) as [Hle|Hgt].
  - replace (0 <? 10 * (Z.of_nat i - period) + d) with false.
    + cbn [andb]. split; [lia|]. by rewrite Nat2Z.id.
    + symmetry. apply Z.ltb_ge.
      destruct (decide (d mod 10 = 0)) as [H0|H0];
        [pose proof (Hm0 H0)|pose proof (Hm1 H0)]; lia.
  - replace (0 <? 10 * (Z.of_nat i - period) + d) with true.
    2:{ symmetry. apply Z.ltb_lt.
        destruct (decide (d mod 10 = 0)) as [H0|H0];
          [pose proof (Hm0 H0)|pose proof (Hm1 H0)]; lia. }
    replace (10 * (Z.of_nat i - period) + d <? 10 * Z.of_nat W) with true
      by (symmetry; apply Z.ltb_lt; lia).
    cbn [andb]. rewrite decide_True by lia.
    replace (Z.of_nat i - period + d / 10) with (Z.of_nat i - k) by lia.
    destruct (IH (Z.to_nat (Z.of_nat i - k))) as [Hrange Hpix]; [lia|lia|].
    assert (Horigin : uniform_origin period d (Z.to_nat (Z.of_nat i - k))
                      = m - (m - Z.of_nat i) mod k).
    { unfold uniform_origin. cbn zeta. fold k. fold m.
      rewrite (decide_False (P := k ≤ 0)) by lia.
      rewrite Z2Nat.id by lia.
      replace (m - (Z.of_nat i - k)) with (m - Z.of_nat i + 1 * k) by lia.
      rewrite Z_mod_plus_full.
      destruct (decide (Z.of_nat i - k ≤ m)) as [Hin|Hout]; [|done].
      rewrite <- (Z_mod_plus_full (m - Z.of_nat i) 1 k).
      rewrite Z.mod_small by lia. lia. }
    rewrite Horigin in Hrange, Hpix. split; [lia|done].
Qed.

(** C4 (as amended): on a depth map of constant value [d], a column
    [i >= period] whose source column [src = i - period + floor(d / 10)]
    lies strictly between 0 and W takes the tiled image's value at [src]
    whenever that column is not itself assigned before it is read: when
    [floor(d / 10) >= period] (the source is at or to the right of [i])
    or when the guard fails at [src], [10 (src - period) + d <= 0].
    Otherwise [floor(d / 10) < period] and the column takes the output's
    own value at [src].  In every case it ends with the tiled image's
    value at the column [uniform_origin] gives. *)
Theorem uniform_depth_disparity (dmap img : image) (period d : Z) :
  wf_image dmap → wf_image img →
  im_size dmap = im_size img → im_mode dmap = ModeL →
  (∀ i j p, pixel_at dmap i j = Some p → p = PxL d) →
  ∃ out,
    createDepthShiftedImage dmap img period = Some out ∧
    ∀ (i j : nat),
      (i < im_width img)%nat → (j < im_height img)%nat →
      period ≤ Z.of_nat i →
      0 < Z.of_nat i - period + d / 10 < Z.of_nat (im_width img) →
      (period ≤ d / 10 ∨
       10 * (Z.of_nat i - period + d / 10 - period) + d ≤ 0 →
         pixel_at out i j =
           pixel_at img (Z.to_nat (Z.of_nat i - period + d / 10)) j) ∧
      (d / 10 < period →
         pixel_at out i j =
           pixel_at out (Z.to_nat (Z.of_nat i - period + d / 10)) j) ∧
      0 ≤ uniform_origin period d i < Z.of_nat (im_width img) ∧
      pixel_at out i j =
        pixel_at img (Z.to_nat (uniform_origin period d i)) j.
Proof.
  intros HD HS Hsize HL Hconst.
  destruct (createDepthShiftedImage_spec dmap img period HD HS Hsize HL)
    as (out & Hrun & _ & _ & _ & Hpix).
  exists out. split; [done|].
  assert (im_width dmap = im_width img ∧ im_height dmap = im_height img)
    as [Hw Hh] by (unfold im_size in Hsize; by simplify_eq).
  assert (Hstep : ∀ i j, (i < im_width img)%nat → (j < im_height img)%nat →
            pixel_at out i j =
              if writes period (im_width img) i d then
                if decide (src_col period i d < Z.of_nat i)
                then pixel_at out (Z.to_nat (src_col period i d)) j
                else pixel_at img (Z.to_nat (src_col period i d)) j
              else pixel_at img i j).
  { intros i j Hi Hj.
    destruct (pixel_at_wf dmap i j) as [p Hp]; [done|lia|lia|].
    pose proof (Hconst i j p Hp) as ->. exact (Hpix i j d Hp). }
  intros i j Hi Hj Hper Hsrc.
  pose proof (Hstep i j Hi Hj) as Hi_eq.
  rewrite writes_true_src in Hi_eq by done. unfold src_col in Hi_eq.
  destruct (decide (d / 10 < period)) as [Hlt|Hge].
  - rewrite decide_True in Hi_eq by lia.
    destruct (uniform_origin_reaches out img period d (im_width img) j
                ltac:(lia) (λ i0 Hi0, Hstep i0 j Hi0 Hj) i Hi)
      as [Horange Hopix].
    split; [|split; [done|split; [lia|done]]].
    intros [Hcontra|Hkept]; [lia|].
    rewrite Hi_eq.
    rewrite (Hstep (Z.to_nat (Z.of_nat i - period + d / 10)) j) by (lia || done).
    rewrite writes_false_nonpos; [done|].
    unfold tenths. rewrite Z2Nat.id by lia. lia.
  - rewrite decide_False in Hi_eq by lia.
    assert (Ho : uniform_origin period d i = Z.of_nat i - period + d / 10).
    { unfold uniform_origin. cbn zeta. rewrite decide_True by lia. lia. }
    rewrite Ho. split; [done|]. split; [lia|]. split; [lia|done].
Qed.

Lemma uniform_depth_disparity_witness :
  (createTiledImage ex_tile2 (im_size ex_depth4_10) = Some ex_tiled4 ∧
   createDepthShiftedImage ex_depth4_10 ex_tiled4 2
     = Some (Image ModeRGB 4 1 [[px 1; px 2; px 2; px 2]]) ∧
   uniform_origin 2 10 2 = 1 ∧ uniform_origin 2 10 3 = 1) ∧
  ∃ out,
    createDepthShiftedImage ex_depth4_10 ex_tiled4 2 = Some out ∧
    ∀ (i j : nat),
      (i < im_width ex_tiled4)%nat → (j < im_height ex_tiled4)%nat →
      2 ≤ Z.of_nat i →
      0 < Z.of_nat i - 2 + 10 / 10 < Z.of_nat (im_width ex_tiled4) →
      (2 ≤ 10 / 10 ∨ 10 * (Z.of_nat i - 2 + 10 / 10 - 2) + 10 ≤ 0 →
         pixel_at out i j =
           pixel_at ex_tiled4 (Z.to_nat (Z.of_nat i - 2 + 10 / 10)) j) ∧
      (10 / 10 < 2 →
         pixel_at out i j =
           pixel_at out (Z.to_nat (Z.of_nat i - 2 + 10 / 10)) j) ∧
      0 ≤ uniform_origin 2 10 i < Z.of_nat (im_width ex_tiled4) ∧
      pixel_at out i j =
        pixel_at ex_tiled4 (Z.to_nat (uniform_origin 2 10 i)) j.
Proof.
  split.
  - split; [by vm_compute|]. split; [by vm_compute|]. split; reflexivity.
  - apply (uniform_depth_disparity ex_depth4_10 ex_tiled4 2 10);
      [solve_wf | solve_wf | reflexivity | reflexivity | ].
    intros i j p. unfold pixel_at, ex_depth4_10. simpl.
    destruct j as [|j]; simpl; [|discriminate].
    do 4 (destruct i as [|i]; simpl; [intros [= <-]; reflexivity|]).
    discriminate.
Defined.

(** C4 as stated fails, on the tiled image of the pipeline: the tile
    [1, 2] tiled over four columns gives the row 1, 2, 1, 2; with its
    width 2 as period and the constant depth 10, column 3 reads column 2
    after column 2 took the value of column 1, and ends with 2, not with
    the tiled image's value 1 at column 2. *)
Lemma uniform_depth_not_from_tiled :
  wf_image ex_depth4_10 ∧ wf_image ex_tile2 ∧
  (∀ i j p, pixel_at ex_depth4_10 i j = Some p → p = PxL 10) ∧
  createTiledImage ex_tile2 (im_size ex_depth4_10) = Some ex_tiled4 ∧
  ∃ out,
    createDepthShiftedImage ex_depth4_10 ex_tiled4
      (Z.of_nat (im_width ex_tile2)) = Some out ∧
    Z.of_nat (im_width ex_tile2) ≤ Z.of_nat 3 ∧
    0 < Z.of_nat 3 - Z.of_nat (im_width ex_tile2) + 10 / 10
      < Z.of_nat (im_width ex_tiled4) ∧
    pixel_at out 3 0 = Some (px 2) ∧
    pixel_at ex_tiled4
      (Z.to_nat (Z.of_nat 3 - Z.of_nat (im_width ex_tile2) + 10 / 10)) 0
      = Some (px 1) ∧
    pixel_at out 3 0
      ≠ pixel_at ex_tiled4
          (Z.to_nat (Z.of_nat 3 - Z.of_nat (im_width ex_tile2) + 10 / 10)) 0.
Proof.
  split; [solve_wf|]. split; [solve_wf|].
  split.
  { intros i j p. unfold pixel_at, ex_depth4_10. simpl.
    destruct j as [|j]; simpl; [|discriminate].
    do 4 (destruct i as [|i]; simpl; [intros [= <-]; reflexivity|]).
    discriminate. }
  split; [by vm_compute|].
  eexists. split; [vm_compute; reflexivity|].
  split; [simpl; lia|]. split; [vm_compute; split; reflexivity|].
  split; [reflexivity|]. split; [reflexivity|].
  vm_compute. discriminate.
Qed.

(** ** Tiling *)

Lemma tile_count_ceil (W w : nat) :
  (0 < w)%nat →
  tile_count W w = Some ((Z.of_nat W + Z.of_nat w - 1) / Z.of_nat w).
Proof.
  intros Hw. unfold tile_count, truediv.
  rewrite decide_False by lia. cbn [mbind option_bind]. f_equal.
  destruct w as [|w]; [lia|].
  change (Z.of_nat (S w)) with (Z.pos (Pos.of_succ_nat w)).
  set (p := Pos.of_succ_nat w).
  unfold Qceiling, Qfloor, Qdiv, Qinv, Qmult, Qopp, inject_Z.
  cbn [Qnum Qden].
  rewrite Z.mul_1_r, Pos.mul_1_l.
  pose proof (Z.div_mod (- Z.of_nat W) (Z.pos p) ltac:(lia)) as H1.
  pose proof (Z.mod_pos_bound (- Z.of_nat W) (Z.pos p) ltac:(lia)) as H2.
  pose proof (Z.div_mod (Z.of_nat W + Z.pos p - 1) (Z.pos p) ltac:(lia)) as H3.
  pose proof (Z.mod_pos_bound (Z.of_nat W + Z.pos p - 1) (Z.pos p) ltac:(lia)) as H4.
  nia.
Qed.

Lemma tile_count_covers (W w x : nat) (n : Z) :
  (0 < w)%nat → tile_count W w = Some n → (x < W)%nat →
  (x / w < Z.to_nat n)%nat.
Proof.
  intros Hw Hn Hx. rewrite tile_count_ceil in Hn by done. simplify_eq.
  pose proof (Z.div_mod (Z.of_nat W + Z.of_nat w - 1) (Z.of_nat w) ltac:(lia)) as H3.
  pose proof (Z.mod_pos_bound (Z.of_nat W + Z.of_nat w - 1) (Z.of_nat w) ltac:(lia)) as H4.
  pose proof (Nat.div_mod_eq x w) as H5.
  pose proof (Nat.mod_upper_bound x w ltac:(lia)) as H6.
  set (q := ((Z.of_nat W + Z.of_nat w - 1) / Z.of_nat w)) in *.
  assert (0 ≤ q) by (apply Z.div_pos; lia).
  nia.
Qed.

Lemma pixel_at_paste img tile box x y :
  pixel_at (paste img tile box) x y
  = paste_pixel tile box.1 box.2 x y <$> pixel_at img x y.
Proof.
  unfold pixel_at, paste. simpl. rewrite list_lookup_imap.
  destruct (im_data img !! y) as [row|]; [simpl|done].
  by rewrite list_lookup_imap.
Qed.

Lemma paste_dims img tile box W H :
  grid_dims W H (im_data img) → grid_dims W H (im_data (paste img tile box)).
Proof.
  intros [Hlen Hrows]. unfold paste. simpl. split.
  - by rewrite length_imap.
  - apply Forall_lookup_2. intros y row. rewrite list_lookup_imap.
    destruct (im_data img !! y) as [row0|] eqn:Hrow; [simpl|done].
    intros [= <-]. rewrite length_imap.
    by apply (Forall_lookup_1 _ _ _ _ Hrows Hrow).
Qed.

Lemma cell_of_pixel (w j x : nat) :
  (0 < w)%nat →
  ((x / w)%nat = j ↔
   Z.of_nat j * Z.of_nat w ≤ Z.of_nat x < Z.of_nat j * Z.of_nat w + Z.of_nat w).
Proof.
  intros Hw.
  pose proof (Nat.div_mod_eq x w). pose proof (Nat.mod_upper_bound x w).
  split; [intros <-; nia | intros Hx; nia].
Qed.

Lemma offset_in_cell (w x : nat) :
  (0 < w)%nat →
  Z.of_nat x - Z.of_nat (x / w) * Z.of_nat w = Z.of_nat (x mod w).
Proof.
  intros Hw. pose proof (Nat.div_mod_eq x w). nia.
Qed.

Lemma paste_pixel_cell tile (i j x y : nat) (p : pixel) :
  wf_image tile → (0 < im_width tile)%nat → (0 < im_height tile)%nat →
  paste_pixel tile (Z.of_nat j * Z.of_nat (im_width tile))
                   (Z.of_nat i * Z.of_nat (im_height tile)) x y p
  = if decide ((x / im_width tile)%nat = j ∧ (y / im_height tile)%nat = i)
    then tile_px tile x y else p.
Proof.
  intros Hwf Hw Hh. unfold paste_pixel.
  pose proof (cell_of_pixel (im_width tile) j x Hw) as Hx.
  pose proof (cell_of_pixel (im_height tile) i y Hh) as Hy.
  destruct (decide ((x / im_width tile)%nat = j ∧ (y / im_height tile)%nat = i))
    as [[Hj Hi]|Hno].
  - pose proof (proj1 Hx Hj) as Hxr. pose proof (proj1 Hy Hi) as Hyr.
    rewrite !(proj2 (Z.leb_le _ _)), !(proj2 (Z.ltb_lt _ _)) by lia.
    cbn [andb]. subst i j.
    rewrite !offset_in_cell, getpixel_nat by done.
    unfold tile_px.
    destruct (pixel_at_wf tile (x mod im_width tile) (y mod im_height tile))
      as [q Hq]; [done|by apply Nat.mod_upper_bound; lia..|].
    unfold pixel_at in Hq. rewrite Hq. unfold pixel_at. by rewrite Hq.
  - destruct (_ && _) eqn:Hc; [|done].
    exfalso. apply Hno.
    apply andb_prop in Hc as [Hc H4]. apply andb_prop in Hc as [Hc H3].
    apply andb_prop in Hc as [H1 H2].
    apply Z.leb_le in H1, H3. apply Z.ltb_lt in H2, H4.
    split; [apply Hx | apply Hy]; lia.
Qed.

(** The cells [a .. a+k-1] of band [i]. *)
Lemma paste_cells tile (i W H : nat) :
  wf_image tile → (0 < im_width tile)%nat → (0 < im_height tile)%nat →
  ∀ k a img, grid_dims W H (im_data img) →
  ∃ img',
    for_each (seq a k)
      (λ j img, Some (paste img tile
         (Z.of_nat j * Z.of_nat (im_width tile),
          Z.of_nat i * Z.of_nat (im_height tile)))) img = Some img' ∧
    same_header img' img ∧ grid_dims W H (im_data img') ∧
    ∀ x y,
      pixel_at img' x y =
        (λ p, if decide ((y / im_height tile)%nat = i ∧
                         (a ≤ x / im_width tile < a + k)%nat)
              then tile_px tile x y else p) <$> pixel_at img x y.
Proof.
  intros Hwf Hw Hh. induction k as [|k IH]; intros a img Hdims.
  - exists img. split_and!; [done|done|done|]. intros x y.
    destruct (pixel_at img x y) as [p|]; [simpl|done].
    rewrite decide_False; [done|lia].
  - cbn [seq for_each mbind option_bind].
    set (img1 := paste img tile _).
    destruct (IH (S a) img1) as (img' & Hrun & Hhdr & Hd' & Hpix).
    { by apply paste_dims. }
    exists img'. split_and!; [done|done|done|].
    intros x y. rewrite Hpix. unfold img1. rewrite pixel_at_paste.
    destruct (pixel_at img x y) as [p|]; [simpl|done].
    rewrite paste_pixel_cell by done. f_equal.
    repeat case_decide; try done; exfalso; lia.
Qed.

(** The bands [b .. b+k-1], each of [cols] cells. *)
Lemma paste_bands tile (cols W H : nat) :
  wf_image tile → (0 < im_width tile)%nat → (0 < im_height tile)%nat →
  ∀ k b img, grid_dims W H (im_data img) →
  ∃ img',
    for_each (seq b k)
      (λ i, for_range cols
         (λ j img, Some (paste img tile
            (Z.of_nat j * Z.of_nat (im_width tile),
             Z.of_nat i * Z.of_nat (im_height tile))))) img = Some img' ∧
    same_header img' img ∧ grid_dims W H (im_data img') ∧
    ∀ x y,
      pixel_at img' x y =
        (λ p, if decide ((b ≤ y / im_height tile < b + k)%nat ∧
                         (x / im_width tile < cols)%nat)
              then tile_px tile x y else p) <$> pixel_at img x y.
Proof.
  intros Hwf Hw Hh. induction k as [|k IH]; intros b img Hdims.
  - exists img. split_and!; [done|done|done|]. intros x y.
    destruct (pixel_at img x y) as [p|]; [simpl|done].
    rewrite decide_False; [done|lia].
  - destruct (paste_cells tile b W H Hwf Hw Hh cols 0 img Hdims)
      as (img1 & Hrun1 & Hhdr1 & Hd1 & Hpix1).
    destruct (IH (S b) img1 Hd1) as (img' & Hrun & Hhdr & Hd' & Hpix).
    exists img'. split_and!; [| |done|].
    2:{ destruct Hhdr as (? & ? & ?), Hhdr1 as (? & ? & ?).
        split_and!; congruence. }
    + cbn [seq for_each]. unfold for_range in *. rewrite Hrun1. exact Hrun.
    + intros x y. rewrite Hpix, Hpix1.
      destruct (pixel_at img x y) as [p|]; [simpl|done].
      f_equal. repeat case_decide; try done; exfalso; lia.
Qed.

Lemma pixel_at_new (m : mode) (W H x y : nat) :
  (x < W)%nat → (y < H)%nat →
  pixel_at (new_image m (W, H)) x y = Some (black m).
Proof.
  intros Hx Hy. unfold pixel_at, new_image. simpl.
  rewrite lookup_replicate_2 by done. simpl.
  by rewrite lookup_replicate_2.
Qed.

Lemma new_image_dims (m : mode) (W H : nat) :
  grid_dims W H (im_data (new_image m (W, H))).
Proof.
  unfold new_image, grid_dims. simpl. split.
  - apply length_replicate.
  - apply Forall_replicate. apply length_replicate.
Qed.

Lemma tile_px_rgb tile x y : pixel_has_mode ModeRGB (tile_px tile x y).
Proof.
  unfold tile_px. destruct (pixel_at tile _ _) as [[v|r g b]|]; done.
Qed.

Lemma wf_of_pixels (im : image) :
  grid_dims (im_width im) (im_height im) (im_data im) →
  (∀ x y p, pixel_at im x y = Some p → pixel_has_mode (im_mode im) p) →
  wf_image im.
Proof.
  intros Hdims Hpix. split; [done|].
  apply Forall_lookup_2. intros y row Hrow.
  apply Forall_lookup_2. intros x p Hp.
  apply (Hpix x y). unfold pixel_at. by rewrite Hrow.
Qed.

(** What [createTiledImage] returns, pixel by pixel. *)
Lemma createTiledImage_spec tile (W H : nat) :
  wf_image tile → (0 < im_width tile)%nat → (0 < im_height tile)%nat →
  ∃ img,
    createTiledImage tile (W, H) = Some img ∧
    im_mode img = ModeRGB ∧ im_size img = (W, H) ∧ wf_image img ∧
    ∀ x y, (x < W)%nat → (y < H)%nat →
      pixel_at img x y = Some (tile_px tile x y).
Proof.
  intros Hwf Hw Hh. unfold createTiledImage, im_size.
  destruct (tile_count W (im_width tile)) as [cols|] eqn:Hcols;
    [|by rewrite tile_count_ceil in Hcols].
  destruct (tile_count H (im_height tile)) as [rows|] eqn:Hrows;
    [|by rewrite tile_count_ceil in Hrows].
  cbn [mbind option_bind].
  destruct (paste_bands tile (Z.to_nat cols) W H Hwf Hw Hh (Z.to_nat rows) 0
              (new_image ModeRGB (W, H)) (new_image_dims _ _ _))
    as (img & Hrun & (Hm & Hiw & Hih) & Hdims & Hpix).
  exists img. unfold for_range at 1. split; [exact Hrun|].
  simpl in Hm, Hiw, Hih.
  assert (Hval : ∀ x y, (x < W)%nat → (y < H)%nat →
            pixel_at img x y = Some (tile_px tile x y)).
  { intros x y Hx Hy. rewrite Hpix, pixel_at_new by done. simpl.
    rewrite decide_True; [done|].
    pose proof (tile_count_covers _ _ x _ Hw Hcols Hx).
    pose proof (tile_count_covers _ _ y _ Hh Hrows Hy). lia. }
  split_and!; [done|by rewrite Hiw, Hih|..|done].
  apply wf_of_pixels; [by rewrite Hiw, Hih|].
  intros x y p Hp. rewrite Hm.
  assert (Hx : (x < W)%nat ∧ (y < H)%nat).
  { unfold pixel_at in Hp. destruct Hdims as [Hl Hr].
    destruct (im_data img !! y) as [row|] eqn:Hrow; [|done].
    simpl in Hp. pose proof (Forall_lookup_1 _ _ _ _ Hr Hrow) as Hlen.
    simpl in Hlen. apply lookup_lt_Some in Hrow, Hp. lia. }
  destruct Hx as [Hx Hy]. rewrite (Hval x y Hx Hy) in Hp.
  simplify_eq. apply tile_px_rgb.
Qed.

(** ** The tiler: claims *)

Lemma tile_count_bounds (W w : nat) :
  (0 < w)%nat →
  ∃ n, tile_count W w = Some n ∧ 0 ≤ n ∧
       (n - 1) * Z.of_nat w < Z.of_nat W ≤ n * Z.of_nat w.
Proof.
  intros Hw. eexists. split; [by apply tile_count_ceil|].
  pose proof (Z.div_mod (Z.of_nat W + Z.of_nat w - 1) (Z.of_nat w) ltac:(lia)).
  pose proof (Z.mod_pos_bound (Z.of_nat W + Z.of_nat w - 1) (Z.of_nat w) ltac:(lia)).
  set (q := ((Z.of_nat W + Z.of_nat w - 1) / Z.of_nat w)) in *.
  assert (0 ≤ q) by (apply Z.div_pos; lia).
  split; [done|]. nia.
Qed.

Lemma new_image_wf (m : mode) (W H : nat) : wf_image (new_image m (W, H)).
Proof.
  split; [apply new_image_dims|]. unfold new_image. simpl.
  apply Forall_replicate, Forall_replicate. by destruct m.
Qed.

(** C7: the tiler computes [cols = ceil(W / w)] and [rows = ceil(H / h)],
    returns a W x H image, and every pixel of it lies in the box of a
    placement [(i, j)] of the grid and holds the tile's pixel at its
    offset in that box; a tile at least as large as a non-empty canvas is
    placed once. *)
Theorem tiling_covers_canvas (tile : image) (W H : nat) :
  wf_image tile → (0 < im_width tile)%nat → (0 < im_height tile)%nat →
  ∃ (cols rows : Z) (img : image),
    tile_count W (im_width tile) = Some cols ∧
    (cols - 1) * Z.of_nat (im_width tile) < Z.of_nat W
      ≤ cols * Z.of_nat (im_width tile) ∧
    tile_count H (im_height tile) = Some rows ∧
    (rows - 1) * Z.of_nat (im_height tile) < Z.of_nat H
      ≤ rows * Z.of_nat (im_height tile) ∧
    ((0 < W ≤ im_width tile)%nat → cols = 1) ∧
    ((0 < H ≤ im_height tile)%nat → rows = 1) ∧
    createTiledImage tile (W, H) = Some img ∧
    im_size img = (W, H) ∧ wf_image img ∧
    ∀ x y : nat, (x < W)%nat → (y < H)%nat →
      ∃ (i j : nat) (p : pixel),
        (i < Z.to_nat rows)%nat ∧ (j < Z.to_nat cols)%nat ∧
        (j * im_width tile ≤ x < j * im_width tile + im_width tile)%nat ∧
        (i * im_height tile ≤ y < i * im_height tile + im_height tile)%nat ∧
        pixel_at tile (x - j * im_width tile) (y - i * im_height tile) = Some p ∧
        pixel_at img x y = Some (to_rgb p).
Proof.
  intros Hwf Hw Hh.
  destruct (tile_count_bounds W _ Hw) as (cols & Hcols & Hc0 & Hcb).
  destruct (tile_count_bounds H _ Hh) as (rows & Hrows & Hr0 & Hrb).
  destruct (createTiledImage_spec tile W H Hwf Hw Hh)
    as (img & Hrun & Hm & Hsize & Hwfi & Hpix).
  exists cols, rows, img.
  split_and!; [done|lia|lia|done|lia|lia|nia|nia|done|done|done|].
  intros x y Hx Hy.
  pose proof (tile_count_covers _ _ x _ Hw Hcols Hx) as Hj.
  pose proof (tile_count_covers _ _ y _ Hh Hrows Hy) as Hi.
  pose proof (Nat.div_mod_eq x (im_width tile)) as Hxd.
  pose proof (Nat.mod_upper_bound x (im_width tile) ltac:(lia)) as Hxm.
  pose proof (Nat.div_mod_eq y (im_height tile)) as Hyd.
  pose proof (Nat.mod_upper_bound y (im_height tile) ltac:(lia)) as Hym.
  destruct (pixel_at_wf tile (x mod im_width tile) (y mod im_height tile))
    as [p Hp]; [done|lia|lia|].
  exists (y / im_height tile)%nat, (x / im_width tile)%nat, p.
  split_and!; [done|done|nia|nia|nia|nia|..].
  - replace (x - x / im_width tile * im_width tile)%nat
      with (x mod im_width tile)%nat by nia.
    replace (y - y / im_height tile * im_height tile)%nat
      with (y mod im_height tile)%nat by nia.
    done.
  - rewrite Hpix by done. unfold tile_px. by rewrite Hp.
Qed.

Lemma tiling_covers_canvas_witness :
  ∃ img : image,
    tile_count 400 100 = Some 4 ∧ tile_count 200 100 = Some 2 ∧
    createTiledImage ex_tile100 (400%nat, 200%nat) = Some img ∧
    im_size img = (400%nat, 200%nat) ∧ wf_image img ∧
    ∀ x y : nat, (x < 400)%nat → (y < 200)%nat →
      ∃ (i j : nat) (p : pixel),
        (i < 2)%nat ∧ (j < 4)%nat ∧
        (j * 100 ≤ x < j * 100 + 100)%nat ∧
        (i * 100 ≤ y < i * 100 + 100)%nat ∧
        pixel_at ex_tile100 (x - j * 100) (y - i * 100) = Some p ∧
        pixel_at img x y = Some (to_rgb p).
Proof.
  destruct (tiling_covers_canvas ex_tile100 400 200)
    as (cols & rows & img & Hcols & _ & Hrows & _ & _ & _ & Hrun & Hsize
        & Hwf & Hpix);
    [apply new_image_wf | simpl; lia | simpl; lia |].
  assert (cols = 4) as ->.
  { rewrite tile_count_ceil in Hcols by (simpl; lia).
    injection Hcols as <-. reflexivity. }
  assert (rows = 2) as ->.
  { rewrite tile_count_ceil in Hrows by (simpl; lia).
    injection Hrows as <-. reflexivity. }
  exists img. split_and!; [exact Hcols|exact Hrows|exact Hrun|exact Hsize|exact Hwf|].
  exact Hpix.
Defined.

(** C5: on an all-zero depth map, with the tiled image built from a tile
    whose width is the period, every column [i > period] of the output
    equals the tiled image's column [i - period]; the output is the tiled
    image itself, and it is what [createAutostereogram] returns for this
    depth map and tile. *)
Theorem zero_depth_identity (tile dmap : image) (g : rng) :
  wf_image tile → (0 < im_width tile)%nat → (0 < im_height tile)%nat →
  wf_image dmap → im_mode dmap = ModeL →
  (∀ i j p, pixel_at dmap i j = Some p → p = PxL 0) →
  ∃ tiled out,
    createTiledImage tile (im_size dmap) = Some tiled ∧
    createDepthShiftedImage dmap tiled (Z.of_nat (im_width tile)) = Some out ∧
    createAutostereogram dmap (Some tile) g = Some (out, g) ∧
    ∀ i j : nat,
      (i < im_width dmap)%nat → (j < im_height dmap)%nat →
      (im_width tile ≤ i)%nat →
      0 < Z.of_nat i - Z.of_nat (im_width tile) < Z.of_nat (im_width dmap) →
      pixel_at out i j = pixel_at tiled (i - im_width tile) j ∧
      pixel_at out i j = pixel_at tiled i j.
Proof.
  intros Hwft Hw Hh Hwfd HL Hzero.
  destruct (createTiledImage_spec tile (im_width dmap) (im_height dmap)
              Hwft Hw Hh) as (tiled & Htile & Hm & Hsize & Hwfi & Htpx).
  destruct (createDepthShiftedImage_spec dmap tiled (Z.of_nat (im_width tile))
              Hwfd Hwfi) as (out & Hrun & _ & _ & _ & Hpix); [done|done|].
  assert (Hwt : im_width tiled = im_width dmap)
    by (unfold im_size in Hsize; by simplify_eq).
  exists tiled, out. split; [done|]. split; [done|].
  split.
  { unfold createAutostereogram. rewrite decide_False by (by rewrite HL; intros Hne).
    cbn [mbind option_bind]. change (im_size dmap) with (im_width dmap, im_height dmap).
    rewrite Htile. cbn [mbind option_bind]. simpl. by rewrite Hrun. }
  assert (Hout : ∀ i j, (i < im_width dmap)%nat → (j < im_height dmap)%nat →
            pixel_at out i j = Some (tile_px tile i j)).
  { intros i j. induction i as [i IH] using lt_wf_ind. intros Hi Hj.
    destruct (pixel_at_wf dmap i j) as [p Hp]; [done..|].
    pose proof (Hzero i j p Hp) as ->.
    rewrite (Hpix i j 0 Hp).
    unfold writes, src_col, tenths. rewrite Hwt.
    change (0 / 10) with 0.
    destruct (decide (im_width tile < i)%nat) as [Hgt|Hle].
    - rewrite !(proj2 (Z.ltb_lt _ _)) by lia. cbn [andb].
      rewrite decide_True by lia.
      replace (Z.to_nat (Z.of_nat i - Z.of_nat (im_width tile) + 0))
        with (i - im_width tile)%nat by lia.
      rewrite IH by lia. unfold tile_px. do 4 f_equal.
      rewrite <- (Nat.Div0.mod_add (i - im_width tile) 1 (im_width tile)).
      f_equal. lia.
    - replace (0 <? 10 * (Z.of_nat i - Z.of_nat (im_width tile)) + 0)
        with false by (symmetry; apply Z.ltb_ge; lia).
      cbn [andb]. apply Htpx; done. }
  intros i j Hi Hj Hper Hsrc.
  rewrite Hout, !Htpx by (done || lia). split; [|done].
  unfold tile_px. do 4 f_equal.
  rewrite <- (Nat.Div0.mod_add (i - im_width tile) 1 (im_width tile)).
  f_equal. lia.
Qed.

(** ** The random tile and the pipeline *)

Lemma for_each_inv {S : Type} (P : S → Prop) (body : nat → S → option S)
    (idx : list nat) (s : S) :
  P s → (∀ i s, P s → ∃ s', body i s = Some s' ∧ P s') →
  ∃ s', for_each idx body s = Some s' ∧ P s'.
Proof.
  intros Hs Hbody. revert s Hs.
  induction idx as [|i idx IH]; intros s Hs; simpl.
  - by exists s.
  - destruct (Hbody i s Hs) as (s1 & -> & Hs1). simpl. by apply IH.
Qed.

Lemma dot_radius_bounds (dims : nat * nat) :
  0 ≤ dot_radius dims ∧
  dot_radius dims ≤ Z.of_nat dims.1 ∧ dot_radius dims ≤ Z.of_nat dims.2.
Proof.
  unfold dot_radius.
  set (m := Z.min (Z.of_nat dims.1) (Z.of_nat dims.2)).
  assert (0 ≤ m) by (unfold m; lia).
  pose proof (Z.div_mod m 100 ltac:(lia)).
  pose proof (Z.mod_pos_bound m 100 ltac:(lia)).
  assert (0 ≤ m / 100) by (apply Z.div_pos; lia).
  unfold m in *. lia.
Qed.

Lemma py_randint_ok (a b : Z) (g : rng) :
  a ≤ b → py_randint a b g = Some (randint a b g).
Proof. intros H. unfold py_randint. by rewrite decide_True. Qed.

Lemma random_dot_total (dims : nat * nat) (g : rng) :
  ∃ bbox cr cg cb g',
    random_dot dims (dot_radius dims) g = Some (bbox, PxRGB cr cg cb, g').
Proof.
  pose proof (dot_radius_bounds dims) as (H0 & H1 & H2).
  unfold random_dot.
  rewrite py_randint_ok by lia.
  destruct (randint 0 (Z.of_nat dims.1 - dot_radius dims) g) as [x g1].
  cbn [mbind option_bind]. rewrite py_randint_ok by lia.
  destruct (randint 0 (Z.of_nat dims.2 - dot_radius dims) g1) as [y g2].
  cbn [mbind option_bind]. rewrite py_randint_ok by lia.
  destruct (randint 0 255 g2) as [cr g3].
  cbn [mbind option_bind]. rewrite py_randint_ok by lia.
  destruct (randint 0 255 g3) as [cg g4].
  cbn [mbind option_bind]. rewrite py_randint_ok by lia.
  destruct (randint 0 255 g4) as [cb g5].
  cbn [mbind option_bind]. by eexists _, _, _, _, _.
Qed.

Lemma draw_ellipse_wf (img : image) bbox cr cg cb :
  wf_image img → im_mode img = ModeRGB →
  wf_image (draw_ellipse img bbox (PxRGB cr cg cb)).
Proof.
  intros [[Hlen Hrows] Hmode] Hm. unfold draw_ellipse. split; simpl.
  - split; [by rewrite length_imap|].
    apply Forall_lookup_2. intros y row. rewrite list_lookup_imap.
    destruct (im_data img !! y) as [row0|] eqn:Hrow; [simpl|done].
    intros [= <-]. rewrite length_imap.
    by apply (Forall_lookup_1 _ _ _ _ Hrows Hrow).
  - apply Forall_lookup_2. intros y row. rewrite list_lookup_imap.
    destruct (im_data img !! y) as [row0|] eqn:Hrow; [simpl|done].
    intros [= <-]. apply Forall_lookup_2. intros x p.
    rewrite list_lookup_imap.
    destruct (row0 !! x) as [p0|] eqn:Hp0; [simpl|done].
    intros [= <-]. destruct (ellipse_covers _ _ _).
    + by rewrite Hm.
    + pose proof (Forall_lookup_1 _ _ _ _ Hmode Hrow) as Hr.
      by apply (Forall_lookup_1 _ _ _ _ Hr Hp0).
Qed.

(** [createRandomTile] returns, whatever the generator draws. *)
Lemma createRandomTile_spec (dims : nat * nat) (g : rng) :
  ∃ img g',
    createRandomTile dims g = Some (img, g') ∧
    wf_image img ∧ im_mode img = ModeRGB ∧ im_size img = dims.
Proof.
  unfold createRandomTile, for_range.
  destruct (for_each_inv
    (λ s : image * rng,
       wf_image s.1 ∧ im_mode s.1 = ModeRGB ∧ im_size s.1 = dims)
    (λ _ '(img, g),
       '(bbox, fill, g) ← random_dot dims (dot_radius dims) g;
       Some (draw_ellipse img bbox fill, g))
    (seq 0 n_dots) (new_image ModeRGB dims, g))
    as ([img g'] & Hrun & Hinv).
  - destruct dims as [W H]. split_and!; [apply new_image_wf|done|done].
  - intros _ [img0 g0] (Hwf & Hm & Hsz). simpl in Hwf, Hm, Hsz.
    destruct (random_dot_total dims g0) as (bbox & cr & cg & cb & g1 & ->).
    cbn [mbind option_bind]. eexists. split; [done|]. simpl.
    split_and!; [by apply draw_ellipse_wf|done|done].
  - exists img, g'. by split.
Qed.

Lemma convert_L_wf (im : image) :
  wf_image im → wf_image (convert_L im) ∧ im_size (convert_L im) = im_size im.
Proof.
  intros [[Hlen Hrows] _]. split; [|done]. unfold convert_L. split; simpl.
  - split; [by rewrite length_map|].
    apply Forall_lookup_2. intros y row. rewrite list_lookup_fmap.
    destruct (im_data im !! y) as [row0|] eqn:Hrow; [simpl|done].
    intros [= <-]. rewrite length_map.
    by apply (Forall_lookup_1 _ _ _ _ Hrows Hrow).
  - apply Forall_fmap, Forall_forall. intros row _.
    apply Forall_fmap, Forall_forall. intros p _. by destruct p.
Qed.

(** The stages of [createAutostereogram]: each returns, and each keeps
    the size of the depth map. *)
Lemma createAutostereogram_stages (dmap : image) (tile : option image) (g : rng) :
  wf_image dmap →
  (∀ t, tile = Some t →
        wf_image t ∧ (0 < im_width t)%nat ∧ (0 < im_height t)%nat) →
  ∃ (dmapL t tiled out : image) (g1 : rng),
    dmapL = (if decide (im_mode dmap ≠ ModeL) then convert_L dmap else dmap) ∧
    match tile with
    | Some t0 => t = t0 ∧ g1 = g
    | None => createRandomTile (100%nat, 100%nat) g = Some (t, g1)
    end ∧
    createTiledImage t (im_size dmapL) = Some tiled ∧
    createDepthShiftedImage dmapL tiled (Z.of_nat (im_size t).1) = Some out ∧
    createAutostereogram dmap tile g = Some (out, g1) ∧
    im_size dmapL = im_size dmap ∧
    im_size tiled = im_size dmap ∧
    im_size out = im_size dmap.
Proof.
  intros Hwfd Htile.
  set (dmapL := if decide (im_mode dmap ≠ ModeL) then convert_L dmap else dmap).
  assert (HdL : wf_image dmapL ∧ im_size dmapL = im_size dmap ∧
                im_mode dmapL = ModeL).
  { unfold dmapL. destruct (decide (im_mode dmap ≠ ModeL)) as [Hne|He].
    - destruct (convert_L_wf dmap Hwfd). done.
    - split_and!; [done|done|].
      destruct (im_mode dmap); [done|]. exfalso. by apply He. }
  destruct HdL as (HwfL & HszL & HmL).
  assert (Ht : ∃ t g1,
      match tile with
      | Some t0 => t = t0 ∧ g1 = g
      | None => createRandomTile (100%nat, 100%nat) g = Some (t, g1)
      end ∧ wf_image t ∧ (0 < im_width t)%nat ∧ (0 < im_height t)%nat).
  { destruct tile as [t0|].
    - exists t0, g. split; [done|]. by apply Htile.
    - destruct (createRandomTile_spec (100%nat, 100%nat) g)
        as (t & g1 & Hrun & Hwf & _ & Hsz).
      exists t, g1. split; [done|]. split; [done|].
      unfold im_size in Hsz. simplify_eq. lia. }
  destruct Ht as (t & g1 & Htsel & Hwft & Hw & Hh).
  destruct (createTiledImage_spec t (im_width dmapL) (im_height dmapL)
              Hwft Hw Hh) as (tiled & Htiled & _ & Hsz & Hwfi & _).
  destruct (createDepthShiftedImage_spec dmapL tiled (Z.of_nat (im_size t).1)
              HwfL Hwfi) as (out & Hrun & _ & Hosz & _ & _); [done|done|].
  change (im_width dmapL, im_height dmapL) with (im_size dmapL) in Hsz.
  exists dmapL, t, tiled, out, g1.
  split_and!; [done|done|exact Htiled|done| |done|congruence|congruence].
  unfold createAutostereogram. fold dmapL.
  assert (Hsel : match tile with
                 | Some t0 => Some (t0, g)
                 | None => createRandomTile (100%nat, 100%nat) g
                 end = Some (t, g1)).
  { destruct tile; [by destruct Htsel as [-> ->]|done]. }
  rewrite Hsel. cbn [mbind option_bind].
  change (im_size dmapL) with (im_width dmapL, im_height dmapL).
  rewrite Htiled. cbn [mbind option_bind]. by rewrite Hrun.
Qed.

(** ** The object store: the Python text computes the functions above *)

Lemma bind_run {A B : Type} (m : M A) (f : A → M B) (w : world) :
  (m ≫= f) w = match m w with Some (a, w') => f a w' | None => None end.
Proof. reflexivity. Qed.

Lemma ret_run {A : Type} (a : A) (w : world) : mret (M := M) a w = Some (a, w).
Proof. reflexivity. Qed.

Lemma deref_run (h : gmap nat image) (g : rng) (l : nat) (im : image) :
  h !! l = Some im → deref l (World h g) = Some (im, World h g).
Proof. intros H. unfold deref, lift. simpl. by rewrite H. Qed.

Lemma Image_size_run h g l im :
  h !! l = Some im → Image_size l (World h g) = Some (im_size im, World h g).
Proof.
  intros H. unfold Image_size. by rewrite bind_run, (deref_run _ _ _ _ H).
Qed.

Lemma fresh_lookup (h : gmap nat image) : h !! fresh (dom h) = None.
Proof. apply not_elem_of_dom, is_fresh. Qed.

Lemma with_data_id (im : image) : with_data im (im_data im) = im.
Proof. by destruct im. Qed.

(** A loop of the store model follows the loop on values, as long as each
    pass of its body does. *)
Lemma for_eachM_sim {S : Type} (R : S → world) (bodyM : nat → M unit)
    (body : nat → S → option S) :
  (∀ i s, bodyM i (R s) = (s' ← body i s; Some ((), R s'))) →
  ∀ idx s,
    for_eachM idx bodyM (R s) = (s' ← for_each idx body s; Some ((), R s')).
Proof.
  intros Hbody. induction idx as [|i idx IH]; intros s.
  - reflexivity.
  - cbn [for_eachM for_each]. rewrite bind_run, Hbody.
    destruct (body i s) as [s1|]; [|done].
    cbn [mbind option_bind]. apply IH.
Qed.

Lemma shift_pixel_st_run h g (dl sl : nat) (dmap img : image) period cols j i
    (pixS : grid) :
  h !! dl = Some dmap → sl ≠ dl →
  (p ← pix_get dl (Z.of_nat i) (Z.of_nat j);
   d ← lift (number_of p);
   xpos ← lift (xpos_of period i d);
   if in_bounds xpos cols then
     v ← pix_get sl (int_of xpos) (Z.of_nat j);
     pix_put sl (Z.of_nat i) (Z.of_nat j) v
   else mret ()) (World (<[sl := with_data img pixS]> h) g)
  = (pixS' ← shift_pixel (im_data dmap) period cols j i pixS;
     Some ((), World (<[sl := with_data img pixS']> h) g)).
Proof.
  intros Hd Hne. unfold shift_pixel.
  rewrite bind_run. unfold pix_get at 1. rewrite bind_run.
  rewrite (deref_run _ _ dl dmap) by (by rewrite lookup_insert_ne).
  unfold lift at 1.
  destruct (getpixel (im_data dmap) (Z.of_nat i) (Z.of_nat j)) as [p|];
    [|done].
  cbn [mbind option_bind]. rewrite bind_run. unfold lift at 1.
  destruct (number_of p) as [d|]; [|done].
  cbn [mbind option_bind]. rewrite bind_run. unfold lift at 1.
  destruct (xpos_of period i d) as [xpos|]; [|done].
  cbn [mbind option_bind].
  destruct (in_bounds xpos cols); [|done].
  rewrite bind_run. unfold pix_get. rewrite bind_run.
  rewrite (deref_run _ _ sl (with_data img pixS)) by apply lookup_insert_eq.
  unfold lift at 1. simpl im_data.
  destruct (getpixel pixS (int_of xpos) (Z.of_nat j)) as [v|]; [|done].
  cbn [mbind option_bind]. unfold pix_put. rewrite bind_run.
  rewrite (deref_run _ _ sl (with_data img pixS)) by apply lookup_insert_eq.
  rewrite bind_run. unfold lift at 1. simpl im_data.
  destruct (putpixel pixS (Z.of_nat i) (Z.of_nat j) v) as [pix'|]; [|done].
  cbn [mbind option_bind]. unfold store. simpl.
  by rewrite insert_insert_eq.
Qed.

(** On a store holding the two arguments, the Python text of
    [createDepthShiftedImage] allocates one object and computes in it what
    the function on values returns. *)
Lemma createDepthShiftedImage_st_run h g (dl il : nat) (dmap img : image)
    (period : Z) :
  h !! dl = Some dmap → h !! il = Some img →
  createDepthShiftedImage_st dl il period (World h g) =
    (out ← createDepthShiftedImage dmap img period;
     Some (fresh (dom h), World (<[fresh (dom h) := out]> h) g)).
Proof.
  intros Hd Hi. unfold createDepthShiftedImage_st, createDepthShiftedImage.
  rewrite bind_run, (Image_size_run _ _ _ _ Hd).
  rewrite bind_run, (Image_size_run _ _ _ _ Hi).
  destruct (decide (im_size dmap = im_size img)) as [Heq|]; [|done].
  rewrite bind_run. unfold Image_copy. rewrite bind_run, (deref_run _ _ _ _ Hi).
  unfold alloc. cbn [w_heap w_rng].
  set (sl := fresh (dom h)).
  assert (Hsl : h !! sl = None) by apply fresh_lookup.
  assert (Hne : sl ≠ dl) by congruence.
  rewrite bind_run, (Image_size_run _ _ sl img) by apply lookup_insert_eq.
  unfold im_size. rewrite bind_run.
  unfold for_rangeM, for_range.
  replace (World (<[sl := img]> h) g)
    with (World (<[sl := with_data img (im_data img)]> h) g)
    by (by rewrite with_data_id).
  rewrite (for_eachM_sim
             (λ pixS, World (<[sl := with_data img pixS]> h) g) _
             (λ j, for_each (seq 0 (im_width img))
                     (shift_pixel (im_data dmap) period (im_width img) j))).
  - destruct (for_each _ _ (im_data img)) as [pixS|]; [|done].
    reflexivity.
  - intros j pixS.
    apply (for_eachM_sim
             (λ pixS, World (<[sl := with_data img pixS]> h) g)).
    intros i pixS'. by apply shift_pixel_st_run.
Qed.

Lemma Image_paste_run h g (sl tl : nat) (im tile : image) box :
  h !! tl = Some tile → sl ≠ tl →
  Image_paste sl tl box (World (<[sl := im]> h) g)
  = Some ((), World (<[sl := paste im tile box]> h) g).
Proof.
  intros Ht Hne. unfold Image_paste.
  rewrite bind_run, (deref_run _ _ sl im) by apply lookup_insert_eq.
  rewrite bind_run, (deref_run _ _ tl tile) by (by rewrite lookup_insert_ne).
  unfold store. simpl. by rewrite insert_insert_eq.
Qed.

Lemma createTiledImage_st_run h g (tl : nat) (tile : image) (dims : nat * nat) :
  h !! tl = Some tile →
  createTiledImage_st tl dims (World h g) =
    (img ← createTiledImage tile dims;
     Some (fresh (dom h), World (<[fresh (dom h) := img]> h) g)).
Proof.
  intros Ht. unfold createTiledImage_st, createTiledImage.
  rewrite bind_run. unfold Image_new, alloc. cbn [w_heap w_rng].
  set (sl := fresh (dom h)).
  assert (Hsl : h !! sl = None) by apply fresh_lookup.
  assert (Hne : sl ≠ tl) by congruence.
  destruct dims as [W H].
  rewrite bind_run, (Image_size_run _ _ tl tile) by (by rewrite lookup_insert_ne).
  unfold im_size. rewrite bind_run. unfold lift at 1.
  destruct (tile_count W (im_width tile)) as [cols|]; [|done].
  cbn [mbind option_bind]. rewrite bind_run. unfold lift at 1.
  destruct (tile_count H (im_height tile)) as [rows|]; [|done].
  cbn [mbind option_bind]. rewrite bind_run.
  unfold for_rangeM, for_range.
  rewrite (for_eachM_sim (λ im, World (<[sl := im]> h) g) _
             (λ i, for_each (seq 0 (Z.to_nat cols))
                (λ j img, Some (paste img tile
                   (Z.of_nat j * Z.of_nat (im_width tile),
                    Z.of_nat i * Z.of_nat (im_height tile)))))).
  - destruct (for_each _ _ (new_image ModeRGB (W, H))) as [img|]; [|done].
    reflexivity.
  - intros i im.
    apply (for_eachM_sim (λ im, World (<[sl := im]> h) g)).
    intros j im'. by rewrite (Image_paste_run _ _ _ _ _ tile).
Qed.

Lemma random_randint_run h g (a b : Z) :
  random_randint a b (World h g)
  = ('(n, g') ← py_randint a b g; Some (n, World h g')).
Proof. reflexivity. Qed.

Lemma Draw_ellipse_run h g (l : nat) (im : image) bbox fill :
  Draw_ellipse l bbox fill (World (<[l := im]> h) g)
  = Some ((), World (<[l := draw_ellipse im bbox fill]> h) g).
Proof.
  unfold Draw_ellipse.
  rewrite bind_run, (deref_run _ _ l im) by apply lookup_insert_eq.
  unfold store. simpl. by rewrite insert_insert_eq.
Qed.

Lemma createRandomTile_st_run h g (dims : nat * nat) :
  createRandomTile_st dims (World h g) =
    ('(img, g') ← createRandomTile dims g;
     Some (fresh (dom h), World (<[fresh (dom h) := img]> h) g')).
Proof.
  unfold createRandomTile_st, createRandomTile.
  rewrite bind_run. unfold Image_new, alloc. cbn [w_heap w_rng].
  set (sl := fresh (dom h)). rewrite bind_run.
  unfold for_rangeM, for_range.
  set (R := λ s : image * rng, World (<[sl := s.1]> h) s.2).
  change (World (<[sl := new_image ModeRGB dims]> h) g)
    with (R (new_image ModeRGB dims, g)).
  rewrite (for_eachM_sim R _
             (λ _ '(img, g),
                '(bbox, fill, g) ← random_dot dims (dot_radius dims) g;
                Some (draw_ellipse img bbox fill, g))).
  - destruct (for_each _ _ (new_image ModeRGB dims, g)) as [[img g']|]; [|done].
    reflexivity.
  - intros _ [im g0]. unfold R. cbn [fst snd]. unfold random_dot.
    rewrite bind_run, random_randint_run.
    destruct (py_randint 0 (Z.of_nat dims.1 - dot_radius dims) g0)
      as [[x g1]|]; [|done].
    cbn [mbind option_bind]. rewrite bind_run, random_randint_run.
    destruct (py_randint 0 (Z.of_nat dims.2 - dot_radius dims) g1)
      as [[y g2]|]; [|done].
    cbn [mbind option_bind]. rewrite bind_run, random_randint_run.
    destruct (py_randint 0 255 g2) as [[cr g3]|]; [|done].
    cbn [mbind option_bind]. rewrite bind_run, random_randint_run.
    destruct (py_randint 0 255 g3) as [[cg g4]|]; [|done].
    cbn [mbind option_bind]. rewrite bind_run, random_randint_run.
    destruct (py_randint 0 255 g4) as [[cb g5]|]; [|done].
    cbn [mbind option_bind]. by rewrite Draw_ellipse_run.
Qed.

Lemma pipeline_tail_run h g (dl tl : nat) (dmapL t : image) :
  h !! dl = Some dmapL → h !! tl = Some t →
  result_of
    ((dsize ← Image_size dl;
      img ← createTiledImage_st tl dsize;
      tsize ← Image_size tl;
      createDepthShiftedImage_st dl img (Z.of_nat tsize.1)) (World h g))
  = (img ← createTiledImage t (im_size dmapL);
     out ← createDepthShiftedImage dmapL img (Z.of_nat (im_size t).1);
     Some (out, g)).
Proof.
  intros Hd Ht.
  rewrite bind_run, (Image_size_run _ _ _ _ Hd).
  rewrite bind_run, (createTiledImage_st_run _ _ _ _ _ Ht).
  destruct (createTiledImage t (im_size dmapL)) as [img|]; [|done].
  cbn [mbind option_bind].
  set (il := fresh (dom h)).
  assert (Hil : h !! il = None) by apply fresh_lookup.
  rewrite bind_run, (Image_size_run _ _ tl t)
    by (rewrite lookup_insert_ne; [done|congruence]).
  rewrite (createDepthShiftedImage_st_run _ _ dl il dmapL img);
    [|rewrite lookup_insert_ne; [done|congruence]|apply lookup_insert_eq].
  destruct (createDepthShiftedImage dmapL img _) as [out|]; [|done].
  cbn [mbind option_bind result_of w_heap w_rng].
  by rewrite lookup_insert_eq.
Qed.

(** On a store holding the depth map and the tile, if one is given, the
    Python text of [createAutostereogram] returns an object holding what
    the function on values returns, and leaves the generator in the same
    state. *)
Lemma createAutostereogram_st_run h g (dl : nat) (tl : option nat)
    (dmap : image) (tile : option image) :
  h !! dl = Some dmap → tile_arg h tl tile →
  result_of (createAutostereogram_st dl tl (World h g))
  = createAutostereogram dmap tile g.
Proof.
  intros Hd Htile. unfold createAutostereogram_st, createAutostereogram.
  rewrite bind_run. unfold Image_mode.
  rewrite bind_run, (deref_run _ _ _ _ Hd), ret_run.
  set (dmapL := if decide (im_mode dmap ≠ ModeL) then convert_L dmap else dmap).
  assert (Hconv : ∃ h1 dl1,
    (if decide (im_mode dmap ≠ ModeL) then Image_convert_L dl else mret dl)
      (World h g) = Some (dl1, World h1 g) ∧
    h1 !! dl1 = Some dmapL ∧ tile_arg h1 tl tile).
  { unfold dmapL. destruct (decide (im_mode dmap ≠ ModeL)).
    - unfold Image_convert_L, alloc.
      rewrite bind_run, (deref_run _ _ _ _ Hd). cbn [w_heap w_rng].
      eexists _, _. split; [reflexivity|].
      split; [apply lookup_insert_eq|].
      pose proof (fresh_lookup h) as Hf.
      destruct tl as [l|], tile as [t|]; simpl in *; try done.
      rewrite lookup_insert_ne; [done|congruence].
    - exists h, dl. by rewrite ret_run. }
  destruct Hconv as (h1 & dl1 & Hc & Hd1 & Htile1).
  rewrite bind_run, Hc, bind_run.
  destruct tl as [l|], tile as [t|]; simpl in Htile1; try done.
  - rewrite ret_run. cbn [mbind option_bind].
    apply (pipeline_tail_run h1 g dl1 l dmapL t Hd1 Htile1).
  - rewrite createRandomTile_st_run.
    destruct (createRandomTile (100%nat, 100%nat) g) as [[t g1]|]; [|done].
    cbn [mbind option_bind].
    pose proof (fresh_lookup h1) as Hf.
    apply (pipeline_tail_run _ g1 dl1 _ dmapL t).
    + rewrite lookup_insert_ne; [done|congruence].
    + apply lookup_insert_eq.
Qed.

(** ** The random tile, the pipeline and the store: claims *)

(** C9 (as amended): for every well-formed depth map, of either mode,
    and every optional well-formed tile of positive width and height,
    [createAutostereogram] returns an image of the depth map's size; the
    single-channel depth map and the tiled image have that size too. *)
Theorem autostereogram_dims (dmap : image) (tile : option image) (g : rng) :
  wf_image dmap →
  (∀ t, tile = Some t →
        wf_image t ∧ (0 < im_width t)%nat ∧ (0 < im_height t)%nat) →
  ∃ (dmapL t tiled out : image) (g1 : rng),
    dmapL = (if decide (im_mode dmap ≠ ModeL) then convert_L dmap else dmap) ∧
    match tile with
    | Some t0 => t = t0 ∧ g1 = g
    | None => createRandomTile (100%nat, 100%nat) g = Some (t, g1)
    end ∧
    createTiledImage t (im_size dmapL) = Some tiled ∧
    createDepthShiftedImage dmapL tiled (Z.of_nat (im_size t).1) = Some out ∧
    createAutostereogram dmap tile g = Some (out, g1) ∧
    im_size dmapL = im_size dmap ∧
    im_size tiled = im_size dmap ∧
    im_size out = im_size dmap.
Proof. apply createAutostereogram_stages. Qed.

(** C10: run on a store holding the depth map and the input image,
    [createDepthShiftedImage] allocates one new object, distinct from both
    arguments, writes its result there and leaves every object the store
    held, the two arguments among them, as it was. *)
Theorem depth_shift_leaves_arguments (h : gmap nat image) (g : rng)
    (dl il : nat) (dmap img : image) (period : Z) :
  h !! dl = Some dmap → h !! il = Some img →
  wf_image dmap → wf_image img →
  im_size dmap = im_size img → im_mode dmap = ModeL →
  ∃ (sl : nat) (out : image) (h' : gmap nat image),
    createDepthShiftedImage_st dl il period (World h g)
      = Some (sl, World h' g) ∧
    h !! sl = None ∧ sl ≠ il ∧ sl ≠ dl ∧
    h' !! dl = Some dmap ∧ h' !! il = Some img ∧
    (∀ l, l ≠ sl → h' !! l = h !! l) ∧
    h' !! sl = Some out ∧
    createDepthShiftedImage dmap img period = Some out.
Proof.
  intros Hd Hi HwD HwS Hsize HL.
  destruct (createDepthShiftedImage_spec dmap img period HwD HwS Hsize HL)
    as (out & Hrun & _).
  pose proof (fresh_lookup h) as Hf.
  exists (fresh (dom h)), out, (<[fresh (dom h) := out]> h).
  split_and!.
  - by rewrite (createDepthShiftedImage_st_run _ _ _ _ _ _ _ Hd Hi), Hrun.
  - done.
  - congruence.
  - congruence.
  - rewrite lookup_insert_ne; [done|congruence].
  - rewrite lookup_insert_ne; [done|congruence].
  - intros l Hl. by rewrite lookup_insert_ne.
  - apply lookup_insert_eq.
  - done.
Qed.

Lemma createRandomTile_st_result h g (dims : nat * nat) :
  result_of (createRandomTile_st dims (World h g)) = createRandomTile dims g.
Proof.
  rewrite createRandomTile_st_run.
  destruct (createRandomTile dims g) as [[img g']|]; [|done].
  cbn [mbind option_bind result_of w_heap w_rng].
  by rewrite lookup_insert_eq.
Qed.

Lemma random_dot_radius (dims : nat * nat) (r : Z) (g g' : rng)
    (x0 y0 x1 y1 : Z) (fill : pixel) :
  random_dot dims r g = Some ((x0, y0, x1, y1), fill, g') →
  x1 - x0 = 2 * r ∧ y1 - y0 = 2 * r.
Proof.
  unfold random_dot. intros H.
  destruct (py_randint 0 (Z.of_nat dims.1 - r) g) as [[x g1]|]; [|done].
  cbn [mbind option_bind] in H.
  destruct (py_randint 0 (Z.of_nat dims.2 - r) g1) as [[y g2]|]; [|done].
  cbn [mbind option_bind] in H.
  destruct (py_randint 0 255 g2) as [[cr g3]|]; [|done].
  cbn [mbind option_bind] in H.
  destruct (py_randint 0 255 g3) as [[cg g4]|]; [|done].
  cbn [mbind option_bind] in H.
  destruct (py_randint 0 255 g4) as [[cb g5]|]; [|done].
  cbn [mbind option_bind] in H. simplify_eq. lia.
Qed.

(** C8: two runs that start from the same generator state, on stores that
    may differ but hold the same depth map and the same tile, return the
    same random tile and the same autostereogram, pixel for pixel, and
    leave the generator in the same state; every dot of a call is drawn
    with the one radius computed before the loop. *)
Theorem same_seed_same_output (h1 h2 : gmap nat image) (g : rng)
    (dl1 dl2 : nat) (tl1 tl2 : option nat) (dmap : image)
    (tile : option image) (dims : nat * nat) :
  h1 !! dl1 = Some dmap → h2 !! dl2 = Some dmap →
  tile_arg h1 tl1 tile → tile_arg h2 tl2 tile →
  wf_image dmap →
  (∀ t, tile = Some t →
        wf_image t ∧ (0 < im_width t)%nat ∧ (0 < im_height t)%nat) →
  ∃ (t out : image) (gt g' : rng),
    result_of (createRandomTile_st dims (World h1 g)) = Some (t, gt) ∧
    result_of (createRandomTile_st dims (World h2 g)) = Some (t, gt) ∧
    result_of (createAutostereogram_st dl1 tl1 (World h1 g)) = Some (out, g') ∧
    result_of (createAutostereogram_st dl2 tl2 (World h2 g)) = Some (out, g') ∧
    ∀ g0 g1 x0 y0 x1 y1 fill,
      random_dot dims (dot_radius dims) g0 = Some ((x0, y0, x1, y1), fill, g1) →
      x1 - x0 = 2 * dot_radius dims ∧ y1 - y0 = 2 * dot_radius dims.
Proof.
  intros Hd1 Hd2 Ht1 Ht2 Hwf Htile.
  destruct (createRandomTile_spec dims g) as (t & gt & Hrt & _).
  destruct (createAutostereogram_stages dmap tile g Hwf Htile)
    as (_ & _ & _ & out & g' & _ & _ & _ & _ & Hrun & _).
  exists t, out, gt, g'. split_and!.
  - by rewrite createRandomTile_st_result.
  - by rewrite createRandomTile_st_result.
  - by rewrite (createAutostereogram_st_run _ _ _ _ dmap tile).
  - by rewrite (createAutostereogram_st_run _ _ _ _ dmap tile).
  - intros g0 g1 x0 y0 x1 y1 fill. apply random_dot_radius.
Qed.

End Pipeline.

(** ** Closed instances *)

Lemma ex_flat4_zero (i j : nat) (p : pixel) :
  pixel_at ex_flat4 i j = Some p → p = PxL 0.
Proof.
  unfold pixel_at, ex_flat4. simpl.
  destruct j as [|j]; simpl; [|discriminate].
  do 4 (destruct i as [|i]; simpl; [intros [= <-]; reflexivity|]).
  discriminate.
Qed.

Lemma zero_depth_identity_witness :
  ∃ tiled out,
    createTiledImage ex_tile2 (im_size ex_flat4) = Some tiled ∧
    createDepthShiftedImage ex_flat4 tiled (Z.of_nat (im_width ex_tile2))
      = Some out ∧
    createAutostereogram randint_low covers_box luma_601 ex_flat4
      (Some ex_tile2) tt = Some (out, tt) ∧
    ∀ i j : nat,
      (i < im_width ex_flat4)%nat → (j < im_height ex_flat4)%nat →
      (im_width ex_tile2 ≤ i)%nat →
      0 < Z.of_nat i - Z.of_nat (im_width ex_tile2)
        < Z.of_nat (im_width ex_flat4) →
      pixel_at out i j = pixel_at tiled (i - im_width ex_tile2) j ∧
      pixel_at out i j = pixel_at tiled i j.
Proof.
  apply (zero_depth_identity randint_low covers_box luma_601
           ex_tile2 ex_flat4 tt);
    [solve_wf | simpl; lia | simpl; lia | solve_wf | reflexivity
    | exact ex_flat4_zero].
Defined.

(** C6: the centre of a dot is drawn from [0, w - r] x [0, h - r], both
    ends included, and the box handed to [draw.ellipse] extends [r] on
    each side of it.  On a 100 x 100 tile (r = 1) the draw x = y = 0 gives
    the box (-1, -1, 1, 1), which crosses the left and top edges; on a
    50 x 50 tile (r = 0) the draw x = y = 50 gives a box outside the
    tile. *)
Theorem random_dot_crosses_edge :
  dot_radius (100%nat, 100%nat) = 1 ∧
  random_dot randint_low (100%nat, 100%nat) (dot_radius (100%nat, 100%nat)) tt
    = Some ((-1, -1, 1, 1), PxRGB 0 0 0, tt) ∧
  ¬ bbox_inside (100%nat, 100%nat) (-1, -1, 1, 1) ∧
  dot_radius (50%nat, 50%nat) = 0 ∧
  random_dot randint_high (50%nat, 50%nat) (dot_radius (50%nat, 50%nat)) tt
    = Some ((50, 50, 50, 50), PxRGB 255 255 255, tt) ∧
  ¬ bbox_inside (50%nat, 50%nat) (50, 50, 50, 50).
Proof.
  split_and!; try reflexivity; unfold bbox_inside; simpl; lia.
Qed.

Lemma autostereogram_dims_witness :
  ∃ (dmapL t tiled out : image) (g1 : unit),
    dmapL = (if decide (im_mode ex_row4 ≠ ModeL)
             then convert_L luma_601 ex_row4 else ex_row4) ∧
    (t = ex_tile2 ∧ g1 = tt) ∧
    createTiledImage t (im_size dmapL) = Some tiled ∧
    createDepthShiftedImage dmapL tiled (Z.of_nat (im_size t).1) = Some out ∧
    createAutostereogram randint_low covers_box luma_601 ex_row4
      (Some ex_tile2) tt = Some (out, g1) ∧
    im_size dmapL = im_size ex_row4 ∧
    im_size tiled = im_size ex_row4 ∧
    im_size out = im_size ex_row4.
Proof.
  apply (autostereogram_dims randint_low covers_box luma_601
           ex_row4 (Some ex_tile2) tt); [solve_wf|].
  intros t [= <-]. split; [solve_wf|]. simpl. lia.
Defined.

(** C9 as stated fails for a tile without extent: on a tile of width 0
    the tiler divides the canvas width by the tile's width, and the
    pipeline raises instead of returning an image. *)
Lemma autostereogram_empty_tile_raises :
  wf_image ex_flat4 ∧ wf_image ex_tile_empty ∧
  im_size ex_tile_empty = (0%nat, 3%nat) ∧
  tile_count (im_size ex_flat4).1 (im_size ex_tile_empty).1 = None ∧
  createTiledImage ex_tile_empty (im_size ex_flat4) = None ∧
  createAutostereogram randint_low covers_box luma_601 ex_flat4
    (Some ex_tile_empty) tt = None ∧
  createAutostereogram_st randint_low covers_box luma_601 0 (Some 1%nat)
    (World ex_store_empty_tile tt) = None.
Proof.
  split; [solve_wf|]. split; [solve_wf|]. split; [reflexivity|].
  split; [reflexivity|]. split; [reflexivity|]. split; [reflexivity|].
  by vm_compute.
Qed.

Lemma depth_shift_leaves_arguments_witness :
  ∃ (sl : nat) (out : image) (h' : gmap nat image),
    createDepthShiftedImage_st 0 2 1 (World ex_store1 tt)
      = Some (sl, World h' tt) ∧
    ex_store1 !! sl = None ∧ sl ≠ 2%nat ∧ sl ≠ 0%nat ∧
    h' !! 0%nat = Some ex_flat4 ∧ h' !! 2%nat = Some ex_row4 ∧
    (∀ l, l ≠ sl → h' !! l = ex_store1 !! l) ∧
    h' !! sl = Some out ∧
    createDepthShiftedImage ex_flat4 ex_row4 1 = Some out.
Proof.
  apply (depth_shift_leaves_arguments ex_store1 tt 0 2 ex_flat4 ex_row4 1);
    [reflexivity | reflexivity | solve_wf | solve_wf | reflexivity
    | reflexivity].
Defined.

Lemma same_seed_same_output_witness :
  ∃ (t out : image) (gt g' : unit),
    result_of (createRandomTile_st randint_low covers_box
                 (100%nat, 100%nat) (World ex_store1 tt)) = Some (t, gt) ∧
    result_of (createRandomTile_st randint_low covers_box
                 (100%nat, 100%nat) (World ex_store2 tt)) = Some (t, gt) ∧
    result_of (createAutostereogram_st randint_low covers_box luma_601
                 0 (Some 1%nat) (World ex_store1 tt)) = Some (out, g') ∧
    result_of (createAutostereogram_st randint_low covers_box luma_601
                 5 (Some 3%nat) (World ex_store2 tt)) = Some (out, g') ∧
    ∀ g0 g1 x0 y0 x1 y1 fill,
      random_dot randint_low (100%nat, 100%nat)
        (dot_radius (100%nat, 100%nat)) g0
        = Some ((x0, y0, x1, y1), fill, g1) →
      x1 - x0 = 2 * dot_radius (100%nat, 100%nat) ∧
      y1 - y0 = 2 * dot_radius (100%nat, 100%nat).
Proof.
  apply (same_seed_same_output randint_low covers_box luma_601
           ex_store1 ex_store2 tt 0 5 (Some 1%nat) (Some 3%nat)
           ex_flat4 (Some ex_tile2) (100%nat, 100%nat));
    [reflexivity | reflexivity | reflexivity | reflexivity | solve_wf |].
  intros t [= <-]. split; [solve_wf|]. simpl. lia.
Defined.

(** * Further properties *)

(** ** The resampler *)

(** The rows of the output, one pass of [shift_row] each. *)
Lemma createDepthShiftedImage_rows (dmap img : image) (period : Z) :
  wf_image dmap → wf_image img →
  im_size dmap = im_size img → im_mode dmap = ModeL →
  ∃ out,
    createDepthShiftedImage dmap img period = Some out ∧
    ∀ j drow srow,
      im_data dmap !! j = Some drow → im_data img !! j = Some srow →
      ∃ orow, shift_row period (im_width img) drow srow = Some orow ∧
              im_data out !! j = Some orow.
Proof.
  intros [HDd HDm] [HSd HSm] Hsize HL.
  unfold createDepthShiftedImage. rewrite decide_True by done.
  unfold im_size in *. simplify_eq. rewrite HL in HDm.
  replace (im_width dmap) with (im_width img) in * by congruence.
  replace (im_height dmap) with (im_height img) in * by congruence.
  destruct (shift_rows_spec (im_data dmap) period (im_width img)
              (im_height img) (im_height img) 0 (im_data img))
    as (out & Hrun & Hdims & _ & Hrows); [done|done|done|lia|].
  unfold for_range at 1. rewrite Hrun. cbn [mbind option_bind].
  eexists. split; [done|]. simpl.
  intros j drow srow Hd Hs.
  destruct (Hrows j) as (dr & sr & or & H1 & H2 & H3 & H4).
  { apply lookup_lt_Some in Hs. destruct HSd. lia. }
  exists or. split; [congruence|done].
Qed.

(** X1: on well-formed inputs with a single-channel depth map the
    resampler raises exactly when the two sizes differ (the assertion);
    when it returns, the output has the input image's mode and size. *)
Theorem depth_shift_fails_iff_sizes_differ (dmap img : image) (period : Z) :
  wf_image dmap → wf_image img → im_mode dmap = ModeL →
  (createDepthShiftedImage dmap img period = None
     ↔ im_size dmap ≠ im_size img) ∧
  (∀ out, createDepthShiftedImage dmap img period = Some out →
          im_mode out = im_mode img ∧ im_size out = im_size img ∧
          wf_image out).
Proof.
  intros HD HS HL.
  destruct (decide (im_size dmap = im_size img)) as [Heq|Hne].
  - destruct (createDepthShiftedImage_spec dmap img period HD HS Heq HL)
      as (out & Hrun & Hm & Hsz & Hwf & _).
    rewrite Hrun. split.
    + split; [discriminate|intros Hne; by destruct Hne].
    + intros out' [= <-]. done.
  - unfold createDepthShiftedImage. rewrite decide_False by done.
    split; [done|]. intros out. discriminate.
Qed.

Lemma depth_shift_fails_iff_sizes_differ_witness :
  (createDepthShiftedImage ex_depth3 ex_row4 1 = None
     ↔ im_size ex_depth3 ≠ im_size ex_row4) ∧
  (∀ out, createDepthShiftedImage ex_depth3 ex_row4 1 = Some out →
          im_mode out = im_mode ex_row4 ∧ im_size out = im_size ex_row4 ∧
          wf_image out).
Proof.
  apply (depth_shift_fails_iff_sizes_differ ex_depth3 ex_row4 1);
    [solve_wf | solve_wf | reflexivity].
Defined.

Lemma for_each_empty_rows {S : Type} (body : nat → S → option S) (idx : list nat)
    (s : S) :
  (∀ j s, body j s = Some s) → for_each idx body s = Some s.
Proof.
  intros Hbody. induction idx as [|j idx IH]; simpl; [done|].
  rewrite Hbody. simpl. exact IH.
Qed.

(** X2: a depth map of mode RGB makes the resampler raise at its first
    pixel (a tuple cannot be divided) as soon as the image has a pixel;
    on an image of width or height 0 no pixel is visited and the input
    image is returned as it is. *)
Theorem depth_shift_rgb_depth_map (dmap img : image) (period : Z) :
  wf_image dmap → wf_image img →
  im_size dmap = im_size img → im_mode dmap = ModeRGB →
  ((0 < im_width img)%nat ∧ (0 < im_height img)%nat →
     createDepthShiftedImage dmap img period = None) ∧
  (im_width img = 0%nat ∨ im_height img = 0%nat →
     createDepthShiftedImage dmap img period = Some img).
Proof.
  intros [[HDl HDr] HDm] [[HSl HSr] _] Hsize HM.
  assert (im_width dmap = im_width img ∧ im_height dmap = im_height img)
    as [Hw Hh] by (unfold im_size in Hsize; by simplify_eq).
  unfold createDepthShiftedImage. rewrite decide_True by done.
  unfold im_size. split.
  - intros [HW HH].
    destruct (im_height img) as [|h] eqn:EH; [lia|].
    destruct (im_width img) as [|w] eqn:EW; [lia|].
    destruct (lookup_lt_is_Some_2 (im_data dmap) 0) as [drow Hdrow]; [lia|].
    pose proof (Forall_lookup_1 _ _ _ _ HDr Hdrow) as Hlen. simpl in Hlen.
    destruct (lookup_lt_is_Some_2 drow 0) as [p Hp]; [lia|].
    pose proof (Forall_lookup_1 _ _ _ _ HDm Hdrow) as Hmr.
    pose proof (Forall_lookup_1 _ _ _ _ Hmr Hp) as Hmp.
    rewrite HM in Hmp. destruct p as [v|r g b]; [done|].
    assert (Hcell : ∀ pixS,
              shift_pixel (im_data dmap) period (S w) 0 0 pixS = None).
    { intros pixS. unfold shift_pixel.
      rewrite getpixel_nat, Hdrow. cbn [mbind option_bind].
      by rewrite Hp. }
    unfold for_range. cbn [seq for_each]. by rewrite Hcell.
  - intros Hzero.
    assert (Hrun : for_range (im_height img)
              (λ j, for_range (im_width img)
                      (shift_pixel (im_data dmap) period (im_width img) j))
              (im_data img) = Some (im_data img)).
    { destruct Hzero as [-> | ->]; [|reflexivity].
      apply for_each_empty_rows. reflexivity. }
    rewrite Hrun. simpl. by rewrite with_data_id.
Qed.

Lemma depth_shift_rgb_depth_map_witness :
  ((0 < im_width ex_row4)%nat ∧ (0 < im_height ex_row4)%nat →
     createDepthShiftedImage ex_row4 ex_row4 1 = None) ∧
  (im_width ex_row4 = 0%nat ∨ im_height ex_row4 = 0%nat →
     createDepthShiftedImage ex_row4 ex_row4 1 = Some ex_row4).
Proof.
  apply (depth_shift_rgb_depth_map ex_row4 ex_row4 1);
    [solve_wf | solve_wf | reflexivity | reflexivity].
Defined.

Lemma depth_row_exists (dmap img : image) (j : nat) (srow : list pixel) :
  wf_image dmap → wf_image img → im_size dmap = im_size img →
  im_data img !! j = Some srow → is_Some (im_data dmap !! j).
Proof.
  intros [[HDl _] _] [[HSl _] _] Hsize Hs.
  assert (im_height dmap = im_height img)
    by (unfold im_size in Hsize; by simplify_eq).
  apply lookup_lt_is_Some_2. apply lookup_lt_Some in Hs. lia.
Qed.

Lemma out_row_none (dmap img out : image) (period : Z) (j : nat) :
  wf_image dmap → wf_image img →
  im_size dmap = im_size img → im_mode dmap = ModeL →
  createDepthShiftedImage dmap img period = Some out →
  im_data img !! j = None → im_data out !! j = None.
Proof.
  intros HD HS Hsize HL Hrun Hnone.
  destruct (createDepthShiftedImage_spec dmap img period HD HS Hsize HL)
    as (out' & Hrun' & _ & Hsz & [[Hlen _] _] & _).
  assert (out' = out) as -> by congruence.
  destruct HS as [[HSlen _] _].
  assert (im_height out = im_height img)
    by (unfold im_size in Hsz; by simplify_eq).
  apply lookup_ge_None. apply lookup_ge_None in Hnone. lia.
Qed.

(** X3: a row of the output is determined by the same row of the depth
    map and of the input image alone: two runs on images of equal width
    whose rows [j1] and [j2] hold the same depth samples and the same
    pixels return outputs with equal rows [j1] and [j2], whatever the
    other rows hold. *)
Theorem depth_shift_rows_independent (dmap1 img1 dmap2 img2 : image)
    (period : Z) (j1 j2 : nat) :
  wf_image dmap1 → wf_image img1 →
  im_size dmap1 = im_size img1 → im_mode dmap1 = ModeL →
  wf_image dmap2 → wf_image img2 →
  im_size dmap2 = im_size img2 → im_mode dmap2 = ModeL →
  im_width img1 = im_width img2 →
  im_data dmap1 !! j1 = im_data dmap2 !! j2 →
  im_data img1 !! j1 = im_data img2 !! j2 →
  ∃ out1 out2,
    createDepthShiftedImage dmap1 img1 period = Some out1 ∧
    createDepthShiftedImage dmap2 img2 period = Some out2 ∧
    im_data out1 !! j1 = im_data out2 !! j2.
Proof.
  intros HD1 HS1 Hsz1 HL1 HD2 HS2 Hsz2 HL2 Hw Hdrow Hsrow.
  destruct (createDepthShiftedImage_rows dmap1 img1 period HD1 HS1 Hsz1 HL1)
    as (out1 & Hrun1 & Hrows1).
  destruct (createDepthShiftedImage_rows dmap2 img2 period HD2 HS2 Hsz2 HL2)
    as (out2 & Hrun2 & Hrows2).
  exists out1, out2. split; [done|]. split; [done|].
  destruct (im_data img1 !! j1) as [srow|] eqn:Hs1.
  - destruct (depth_row_exists dmap1 img1 j1 srow HD1 HS1 Hsz1 Hs1)
      as [drow Hd1].
    destruct (Hrows1 j1 drow srow Hd1 Hs1) as (o1 & Ho1 & ->).
    destruct (Hrows2 j2 drow srow) as (o2 & Ho2 & ->); [congruence..|].
    rewrite Hw in Ho1. congruence.
  - rewrite (out_row_none dmap1 img1 out1 period j1) by done.
    by rewrite (out_row_none dmap2 img2 out2 period j2).
Qed.

Lemma depth_shift_rows_independent_witness :
  ∃ out1 out2,
    createDepthShiftedImage ex_flat4 ex_row4 1 = Some out1 ∧
    createDepthShiftedImage ex_depth4x2 ex_rows4x2 1 = Some out2 ∧
    im_data out1 !! 0%nat = im_data out2 !! 1%nat.
Proof.
  apply (depth_shift_rows_independent ex_flat4 ex_row4 ex_depth4x2 ex_rows4x2
           1 0 1);
    solve [solve_wf | reflexivity].
Defined.

Lemma shifted_pixels_from_row (dmap img : image) (period : Z) :
  wf_image dmap → wf_image img →
  im_size dmap = im_size img → im_mode dmap = ModeL →
  ∃ out,
    createDepthShiftedImage dmap img period = Some out ∧
    ∀ (i j : nat) (p : pixel),
      pixel_at out i j = Some p → ∃ i', pixel_at img i' j = Some p.
Proof.
  intros HD HS Hsize HL.
  destruct (createDepthShiftedImage_rows dmap img period HD HS Hsize HL)
    as (out & Hrun & Hrows).
  exists out. split; [done|].
  intros i j p Hp. unfold pixel_at in *.
  destruct (im_data out !! j) as [orow|] eqn:Ho; [|done].
  cbn [mbind option_bind] in Hp.
  destruct (im_data img !! j) as [srow|] eqn:Hs.
  - destruct (depth_row_exists dmap img j srow HD HS Hsize Hs) as [drow Hd].
    destruct (Hrows j drow srow Hd Hs) as (o & Hrow & Ho').
    assert (o = orow) as -> by congruence.
    assert (HF : Forall (λ q, q ∈ srow) orow).
    { eapply shift_cells_Forall; [|exact Hrow].
      by apply Forall_forall. }
    pose proof (Forall_lookup_1 _ _ _ _ HF Hp) as Hin.
    apply list_elem_of_lookup in Hin as [i' Hi'].
    exists i'. done.
  - by rewrite (out_row_none dmap img out period j) in Ho.
Qed.

(** X4: the resampler creates no pixel value and moves none across rows:
    every pixel of the output is a pixel of the same row of the input
    image. *)
Theorem depth_shift_pixels_from_same_row (dmap img : image) (period : Z) :
  wf_image dmap → wf_image img →
  im_size dmap = im_size img → im_mode dmap = ModeL →
  ∃ out,
    createDepthShiftedImage dmap img period = Some out ∧
    ∀ (i j : nat) (p : pixel),
      pixel_at out i j = Some p → ∃ i', pixel_at img i' j = Some p.
Proof. apply shifted_pixels_from_row. Qed.

Lemma depth_shift_pixels_from_same_row_witness :
  ∃ out,
    createDepthShiftedImage ex_depth3 ex_row3 3 = Some out ∧
    ∀ (i j : nat) (p : pixel),
      pixel_at out i j = Some p → ∃ i', pixel_at ex_row3 i' j = Some p.
Proof.
  apply (depth_shift_pixels_from_same_row ex_depth3 ex_row3 3);
    solve [solve_wf | reflexivity].
Defined.

(** X5: the guard is tested on the unrounded position.  At column
    [i = period] a depth sample in [1, 9] gives [0 < xpos < 1]: the test
    passes, the accessor truncates to column 0, and the pixel takes the
    value of column 0; a depth sample 0 gives [xpos = 0] and the pixel is
    left as it is. *)
Theorem depth_shift_at_period_column (dmap img : image) (period j : nat)
    (d : Z) :
  wf_image dmap → wf_image img →
  im_size dmap = im_size img → im_mode dmap = ModeL →
  (0 < period < im_width img)%nat →
  pixel_at dmap period j = Some (PxL d) →
  ∃ out,
    createDepthShiftedImage dmap img (Z.of_nat period) = Some out ∧
    (0 < d < 10 → pixel_at out period j = pixel_at out 0 j) ∧
    (d = 0 → pixel_at out period j = pixel_at img period j).
Proof.
  intros HD HS Hsize HL Hper Hd.
  destruct (createDepthShiftedImage_spec dmap img (Z.of_nat period)
              HD HS Hsize HL) as (out & Hrun & _ & _ & _ & Hpix).
  exists out. split; [done|].
  rewrite (Hpix period j d Hd). unfold writes, src_col, tenths. split.
  - intros Hd9.
    rewrite !(proj2 (Z.ltb_lt _ _)) by lia. cbn [andb].
    rewrite (Z.div_small d 10) by lia.
    rewrite decide_True by lia.
    by replace (Z.to_nat (Z.of_nat period - Z.of_nat period + 0)) with 0%nat
      by lia.
  - intros ->.
    replace (0 <? 10 * (Z.of_nat period - Z.of_nat period) + 0) with false
      by (symmetry; apply Z.ltb_ge; lia).
    done.
Qed.

Lemma depth_shift_at_period_column_witness :
  ∃ out,
    createDepthShiftedImage ex_depth4_5 ex_row4 (Z.of_nat 1) = Some out ∧
    (0 < 5 < 10 → pixel_at out 1 0 = pixel_at out 0 0) ∧
    (5 = 0 → pixel_at out 1 0 = pixel_at ex_row4 1 0).
Proof.
  apply (depth_shift_at_period_column ex_depth4_5 ex_row4 1 0 5);
    [solve_wf | solve_wf | reflexivity | reflexivity | simpl; lia
    | reflexivity].
Defined.

(** Two images with the same header and the same pixels are equal. *)
Lemma image_ext (a b : image) :
  same_header a b →
  grid_dims (im_width a) (im_height a) (im_data a) →
  grid_dims (im_width b) (im_height b) (im_data b) →
  (∀ i j, (i < im_width a)%nat → (j < im_height a)%nat →
     pixel_at a i j = pixel_at b i j) →
  a = b.
Proof.
  destruct a as [ma Wa Ha ga], b as [mb Wb Hb gb].
  intros (Hm & Hw & Hh) [Hl1 Hr1] [Hl2 Hr2] Hpix. simpl in *.
  subst mb Wb Hb. f_equal.
  apply list_eq_same_length with Ha; [done|done|].
  intros j r1 r2 Hj Hrow1 Hrow2.
  pose proof (Forall_lookup_1 _ _ _ _ Hr1 Hrow1) as Hlen1.
  pose proof (Forall_lookup_1 _ _ _ _ Hr2 Hrow2) as Hlen2.
  simpl in Hlen1, Hlen2.
  apply list_eq_same_length with Wa; [done|done|].
  intros i p1 p2 Hi Hp1 Hp2.
  specialize (Hpix i j Hi Hj). unfold pixel_at in Hpix. simpl in Hpix.
  rewrite Hrow1, Hrow2 in Hpix. simpl in Hpix. congruence.
Qed.

(** X21: against an 8-bit depth map a period of at least W + 25 (a tile
    wider than the image by 25 columns or more), or of at most -W, puts
    every [xpos] outside (0, W): no pixel is assigned and the resampler
    returns the input image unchanged.  The period is one whose column
    offsets [i - period] convert to binary64; beyond that range the
    addition of [xshift] raises [OverflowError]. *)
Theorem depth_shift_wide_period_is_identity (dmap img : image) (period : Z) :
  wf_image dmap → wf_image img →
  im_size dmap = im_size img → im_mode dmap = ModeL →
  (∀ i j d, pixel_at dmap i j = Some (PxL d) → 0 ≤ d ≤ 255) →
  (∀ i : nat, (i < im_width img)%nat →
     float_convertible (Z.of_nat i - period)) →
  Z.of_nat (im_width img) + 25 ≤ period ∨ period ≤ - Z.of_nat (im_width img) →
  createDepthShiftedImage dmap img period = Some img.
Proof.
  intros HD HS Hsize HL Hbyte _ Hper.
  destruct (createDepthShiftedImage_spec dmap img period HD HS Hsize HL)
    as (out & Hrun & Hm & Hsz & Hwfo & Hpix).
  rewrite Hrun. f_equal.
  assert (im_width out = im_width img ∧ im_height out = im_height img)
    as [Hw Hh] by (unfold im_size in Hsz; by simplify_eq).
  assert (im_width dmap = im_width img ∧ im_height dmap = im_height img)
    as [Hwd Hhd] by (unfold im_size in Hsize; by simplify_eq).
  destruct Hwfo as [Hdo _]. pose proof HS as [Hdi _].
  apply image_ext; [done|done|done|].
  rewrite Hw, Hh. intros i j Hi Hj.
  destruct (pixel_at_wf dmap i j) as [p Hp]; [done|lia|lia|].
  destruct (mode_L_number p) as [d ->].
  { destruct HD as [_ HDm]. rewrite HL in HDm. unfold pixel_at in Hp.
    destruct (im_data dmap !! j) as [row|] eqn:Hrow; [|done]. simpl in Hp.
    pose proof (Forall_lookup_1 _ _ _ _ HDm Hrow) as Hr.
    by apply (Forall_lookup_1 _ _ _ _ Hr Hp). }
  pose proof (Hbyte i j d Hp) as Hd.
  rewrite (Hpix i j d Hp). unfold writes, tenths.
  destruct Hper as [Hbig|Hneg].
  - replace (0 <? 10 * (Z.of_nat i - period) + d) with false
      by (symmetry; apply Z.ltb_ge; lia).
    done.
  - replace (10 * (Z.of_nat i - period) + d <? 10 * Z.of_nat (im_width img))
      with false by (symmetry; apply Z.ltb_ge; lia).
    by rewrite andb_false_r.
Qed.

Lemma depth_shift_wide_period_is_identity_witness :
  createDepthShiftedImage ex_depth3 ex_row3 28 = Some ex_row3.
Proof.
  apply (depth_shift_wide_period_is_identity ex_depth3 ex_row3 28);
    [solve_wf | solve_wf | reflexivity | reflexivity | | | simpl; lia].
  - intros i j d. unfold pixel_at, ex_depth3. simpl.
    destruct j as [|j]; simpl; [|discriminate].
    do 3 (destruct i as [|i]; simpl; [intros [= <-]; lia|]).
    discriminate.
  - intros i Hi. simpl in Hi. unfold float_convertible.
    apply Z.lt_le_trans with 1000; [lia|]. by vm_compute.
Defined.

(** ** The tiler *)

Lemma for_each_total {St : Type} (body : nat → St → option St)
    (idx : list nat) :
  (∀ i s, is_Some (body i s)) → ∀ s, is_Some (for_each idx body s).
Proof.
  intros Hbody. induction idx as [|i idx IH]; intros s; simpl; [done|].
  destruct (Hbody i s) as [s1 ->]. simpl. apply IH.
Qed.

Lemma tile_count_zero (W w : nat) :
  (w = 0%nat ∧ tile_count W w = None) ∨
  (∃ n, (0 < w)%nat ∧ tile_count W w = Some n).
Proof.
  destruct w as [|w].
  - left. split; [done|]. reflexivity.
  - right. eexists. split; [lia|]. apply tile_count_ceil. lia.
Qed.

Lemma createTiledImage_none_iff (tile : image) (dims : nat * nat) :
  createTiledImage tile dims = None
    ↔ im_width tile = 0%nat ∨ im_height tile = 0%nat.
Proof.
  destruct dims as [W H]. unfold createTiledImage, im_size.
  destruct (tile_count_zero W (im_width tile)) as [[Hw ->]|[cols [Hw ->]]].
  { split; [by left|done]. }
  cbn [mbind option_bind].
  destruct (tile_count_zero H (im_height tile)) as [[Hh ->]|[rows [Hh ->]]].
  { split; [by right|done]. }
  cbn [mbind option_bind].
  split; [|lia]. intros Hnone. exfalso.
  match type of Hnone with ?run = None =>
    assert (Hsome : is_Some run) end.
  { apply for_each_total. intros i s. apply for_each_total. by eexists. }
  rewrite Hnone in Hsome. by destruct Hsome.
Qed.

(** X6: the tiler raises exactly when the tile has width or height 0
    (the division [W / w] or [H / h] by zero), for every tile and every
    target size. *)
Theorem tiling_fails_iff_empty_tile (tile : image) (dims : nat * nat) :
  createTiledImage tile dims = None
    ↔ im_width tile = 0%nat ∨ im_height tile = 0%nat.
Proof. apply createTiledImage_none_iff. Qed.

(** X7: the tiled image repeats with the tile's width along a row and
    with the tile's height along a column. *)
Theorem tiled_image_periodic (tile : image) (W H : nat) :
  wf_image tile → (0 < im_width tile)%nat → (0 < im_height tile)%nat →
  ∃ img,
    createTiledImage tile (W, H) = Some img ∧
    (∀ x y : nat, (x + im_width tile < W)%nat → (y < H)%nat →
       pixel_at img (x + im_width tile) y = pixel_at img x y) ∧
    (∀ x y : nat, (x < W)%nat → (y + im_height tile < H)%nat →
       pixel_at img x (y + im_height tile) = pixel_at img x y).
Proof.
  intros Hwf Hw Hh.
  destruct (createTiledImage_spec tile W H Hwf Hw Hh)
    as (img & Hrun & _ & _ & _ & Hpix).
  exists img. split; [done|]. split.
  - intros x y Hx Hy. rewrite !Hpix by lia. unfold tile_px.
    replace ((x + im_width tile) mod im_width tile)%nat
      with (x mod im_width tile)%nat; [done|].
    rewrite <- (Nat.Div0.mod_add x 1 (im_width tile)). f_equal. lia.
  - intros x y Hx Hy. rewrite !Hpix by lia. unfold tile_px.
    replace ((y + im_height tile) mod im_height tile)%nat
      with (y mod im_height tile)%nat; [done|].
    rewrite <- (Nat.Div0.mod_add y 1 (im_height tile)). f_equal. lia.
Qed.

Lemma tiled_image_periodic_witness :
  ∃ img,
    createTiledImage ex_tile2 (5%nat, 3%nat) = Some img ∧
    (∀ x y : nat, (x + im_width ex_tile2 < 5)%nat → (y < 3)%nat →
       pixel_at img (x + im_width ex_tile2) y = pixel_at img x y) ∧
    (∀ x y : nat, (x < 5)%nat → (y + im_height ex_tile2 < 3)%nat →
       pixel_at img x (y + im_height ex_tile2) = pixel_at img x y).
Proof.
  apply (tiled_image_periodic ex_tile2 5 3); [solve_wf | simpl; lia | simpl; lia].
Defined.

(** X8: a tile at least as wide and as high as the target is placed once,
    and the result is its top-left W x H corner, converted to RGB. *)
Theorem tiling_oversize_tile_is_cropped (tile : image) (W H : nat) :
  wf_image tile → (0 < im_width tile)%nat → (0 < im_height tile)%nat →
  (W ≤ im_width tile)%nat → (H ≤ im_height tile)%nat →
  ∃ img,
    createTiledImage tile (W, H) = Some img ∧ im_size img = (W, H) ∧
    ∀ x y : nat, (x < W)%nat → (y < H)%nat →
      pixel_at img x y = to_rgb <$> pixel_at tile x y.
Proof.
  intros Hwf Hw Hh HW HH.
  destruct (createTiledImage_spec tile W H Hwf Hw Hh)
    as (img & Hrun & _ & Hsz & _ & Hpix).
  exists img. split; [done|]. split; [done|].
  intros x y Hx Hy. rewrite Hpix by done. unfold tile_px.
  destruct (decide (x = im_width tile)) as [->|Hxne]; [lia|].
  destruct (decide (y = im_height tile)) as [->|Hyne]; [lia|].
  rewrite (Nat.mod_small x), (Nat.mod_small y) by lia.
  destruct (pixel_at_wf tile x y) as [p ->]; [done|lia|lia|]. done.
Qed.

Lemma tiling_oversize_tile_is_cropped_witness :
  ∃ img,
    createTiledImage ex_row4 (2%nat, 1%nat) = Some img ∧
    im_size img = (2%nat, 1%nat) ∧
    ∀ x y : nat, (x < 2)%nat → (y < 1)%nat →
      pixel_at img x y = to_rgb <$> pixel_at ex_row4 x y.
Proof.
  apply (tiling_oversize_tile_is_cropped ex_row4 2 1);
    [solve_wf | simpl; lia | simpl; lia | simpl; lia | simpl; lia].
Defined.

(** X9: run on a store holding the tile, [createTiledImage] allocates one
    new object, builds the tiled image there by pasting in place, and
    leaves every object the store held, the tile among them, as it was. *)
Theorem tiling_leaves_tile {rng : Type} (h : gmap nat image) (g : rng)
    (tl : nat) (tile : image) (dims : nat * nat) :
  h !! tl = Some tile →
  (0 < im_width tile)%nat → (0 < im_height tile)%nat →
  ∃ (l : nat) (img : image) (h' : gmap nat image),
    createTiledImage_st tl dims (World h g) = Some (l, World h' g) ∧
    h !! l = None ∧ l ≠ tl ∧
    h' !! tl = Some tile ∧
    (∀ l0, l0 ≠ l → h' !! l0 = h !! l0) ∧
    h' !! l = Some img ∧
    createTiledImage tile dims = Some img.
Proof.
  intros Ht Hw Hh.
  destruct (createTiledImage tile dims) as [img|] eqn:Hrun.
  2:{ apply createTiledImage_none_iff in Hrun. lia. }
  pose proof (fresh_lookup h) as Hf.
  exists (fresh (dom h)), img, (<[fresh (dom h) := img]> h).
  split_and!.
  - by rewrite (createTiledImage_st_run _ _ _ _ _ Ht), Hrun.
  - done.
  - congruence.
  - rewrite lookup_insert_ne; [done|congruence].
  - intros l0 Hl0. by rewrite lookup_insert_ne.
  - apply lookup_insert_eq.
  - done.
Qed.

Lemma tiling_leaves_tile_witness :
  ∃ (l : nat) (img : image) (h' : gmap nat image),
    createTiledImage_st 1 (5%nat, 3%nat) (World ex_store1 tt)
      = Some (l, World h' tt) ∧
    ex_store1 !! l = None ∧ l ≠ 1%nat ∧
    h' !! 1%nat = Some ex_tile2 ∧
    (∀ l0, l0 ≠ l → h' !! l0 = ex_store1 !! l0) ∧
    h' !! l = Some img ∧
    createTiledImage ex_tile2 (5%nat, 3%nat) = Some img.
Proof.
  apply (tiling_leaves_tile ex_store1 tt 1 ex_tile2 (5%nat, 3%nat));
    [reflexivity | simpl; lia | simpl; lia].
Defined.

(** ** The random tile *)

(** X10: for every tile size and every generator, [createRandomTile]
    returns: the ranges it hands to [randint] are never empty, since the
    radius is at most the smaller dimension.  The tile is a well-formed
    RGB image of the requested size. *)
Theorem random_tile_returns {rng : Type} (randint : Z → Z → rng → Z * rng)
    (ellipse_covers : Z * Z * Z * Z → Z → Z → bool)
    (dims : nat * nat) (g : rng) :
  0 ≤ dot_radius dims ≤ Z.min (Z.of_nat dims.1) (Z.of_nat dims.2) ∧
  ∃ img g',
    createRandomTile randint ellipse_covers dims g = Some (img, g') ∧
    wf_image img ∧ im_mode img = ModeRGB ∧ im_size img = dims.
Proof.
  split.
  - pose proof (dot_radius_bounds dims). lia.
  - apply createRandomTile_spec.
Qed.

(** X11: with a generator that keeps to the requested range, every dot
    has its centre in [0, w - r] x [0, h - r], both ends included, its
    box is the centre extended by [r] on each side, so that it lies in
    [-r, w] x [-r, h], and its fill has three bands in [0, 255]. *)
Theorem random_dot_bounds {rng : Type} (randint : Z → Z → rng → Z * rng)
    (dims : nat * nat) (g : rng) :
  (∀ a b g0, a ≤ b → a ≤ (randint a b g0).1 ≤ b) →
  ∃ (x y cr cg cb : Z) (g' : rng),
    random_dot randint dims (dot_radius dims) g
      = Some ((x - dot_radius dims, y - dot_radius dims,
               x + dot_radius dims, y + dot_radius dims),
              PxRGB cr cg cb, g') ∧
    0 ≤ x ≤ Z.of_nat dims.1 - dot_radius dims ∧
    0 ≤ y ≤ Z.of_nat dims.2 - dot_radius dims ∧
    - dot_radius dims ≤ x - dot_radius dims ∧
    x + dot_radius dims ≤ Z.of_nat dims.1 ∧
    - dot_radius dims ≤ y - dot_radius dims ∧
    y + dot_radius dims ≤ Z.of_nat dims.2 ∧
    0 ≤ cr ≤ 255 ∧ 0 ≤ cg ≤ 255 ∧ 0 ≤ cb ≤ 255.
Proof.
  intros Hrange.
  pose proof (dot_radius_bounds dims) as (H0 & H1 & H2).
  unfold random_dot.
  rewrite py_randint_ok by lia.
  pose proof (Hrange 0 (Z.of_nat dims.1 - dot_radius dims) g ltac:(lia)) as Hx.
  destruct (randint 0 (Z.of_nat dims.1 - dot_radius dims) g) as [x g1].
  cbn [mbind option_bind]. rewrite py_randint_ok by lia.
  pose proof (Hrange 0 (Z.of_nat dims.2 - dot_radius dims) g1 ltac:(lia)) as Hy.
  destruct (randint 0 (Z.of_nat dims.2 - dot_radius dims) g1) as [y g2].
  cbn [mbind option_bind]. rewrite py_randint_ok by lia.
  pose proof (Hrange 0 255 g2 ltac:(lia)) as Hr.
  destruct (randint 0 255 g2) as [cr g3].
  cbn [mbind option_bind]. rewrite py_randint_ok by lia.
  pose proof (Hrange 0 255 g3 ltac:(lia)) as Hg.
  destruct (randint 0 255 g3) as [cg g4].
  cbn [mbind option_bind]. rewrite py_randint_ok by lia.
  pose proof (Hrange 0 255 g4 ltac:(lia)) as Hb.
  destruct (randint 0 255 g4) as [cb g5].
  cbn [mbind option_bind]. simpl in *.
  exists x, y, cr, cg, cb, g5. split; [done|]. lia.
Qed.

Lemma random_dot_bounds_witness :
  ∃ (x y cr cg cb : Z) (g' : unit),
    random_dot randint_high (100%nat, 100%nat)
        (dot_radius (100%nat, 100%nat)) tt
      = Some ((x - dot_radius (100%nat, 100%nat),
               y - dot_radius (100%nat, 100%nat),
               x + dot_radius (100%nat, 100%nat),
               y + dot_radius (100%nat, 100%nat)),
              PxRGB cr cg cb, g') ∧
    0 ≤ x ≤ Z.of_nat (100%nat, 100%nat).1 - dot_radius (100%nat, 100%nat) ∧
    0 ≤ y ≤ Z.of_nat (100%nat, 100%nat).2 - dot_radius (100%nat, 100%nat) ∧
    - dot_radius (100%nat, 100%nat) ≤ x - dot_radius (100%nat, 100%nat) ∧
    x + dot_radius (100%nat, 100%nat) ≤ Z.of_nat (100%nat, 100%nat).1 ∧
    - dot_radius (100%nat, 100%nat) ≤ y - dot_radius (100%nat, 100%nat) ∧
    y + dot_radius (100%nat, 100%nat) ≤ Z.of_nat (100%nat, 100%nat).2 ∧
    0 ≤ cr ≤ 255 ∧ 0 ≤ cg ≤ 255 ∧ 0 ≤ cb ≤ 255.
Proof.
  apply (random_dot_bounds randint_high (100%nat, 100%nat) tt).
  intros a b g0 Hab. simpl. lia.
Defined.

(** ** The pipeline *)

Lemma pixel_at_in_range (im : image) (x y : nat) (p : pixel) :
  wf_image im → pixel_at im x y = Some p →
  (x < im_width im)%nat ∧ (y < im_height im)%nat.
Proof.
  intros [[Hl Hr] _] Hp. unfold pixel_at in Hp.
  destruct (im_data im !! y) as [row|] eqn:Hrow; [|done].
  simpl in Hp. pose proof (Forall_lookup_1 _ _ _ _ Hr Hrow) as Hlen.
  simpl in Hlen. apply lookup_lt_Some in Hrow, Hp. lia.
Qed.

(** X12: with a tile supplied, every pixel of the autostereogram is a
    pixel of the tile (converted to RGB): tiling and resampling only copy
    tile pixels around; and the generator is not advanced. *)
Theorem stereogram_pixels_from_tile {rng : Type}
    (randint : Z → Z → rng → Z * rng)
    (ellipse_covers : Z * Z * Z * Z → Z → Z → bool)
    (luma : Z → Z → Z → Z) (dmap t : image) (g : rng) :
  wf_image dmap → wf_image t →
  (0 < im_width t)%nat → (0 < im_height t)%nat →
  ∃ out,
    createAutostereogram randint ellipse_covers luma dmap (Some t) g
      = Some (out, g) ∧
    ∀ (i j : nat) (p : pixel),
      pixel_at out i j = Some p →
      ∃ (x y : nat) (q : pixel), pixel_at t x y = Some q ∧ p = to_rgb q.
Proof.
  intros Hwfd Hwft Hw Hh.
  destruct (createAutostereogram_stages randint ellipse_covers luma
              dmap (Some t) g Hwfd)
    as (dmapL & t0 & tiled & out & g1 & HdL & [-> ->] & Htiled & Hshift
        & Hrun & HszL & Hszt & _).
  { intros t' [= <-]. done. }
  exists out. split; [done|].
  destruct (createTiledImage_spec t (im_width dmapL) (im_height dmapL)
              Hwft Hw Hh) as (tiled' & Htiled' & _ & Hsz' & Hwfi & Hpix).
  change (im_size dmapL) with (im_width dmapL, im_height dmapL) in Htiled.
  assert (tiled' = tiled) as -> by congruence.
  assert (HwfL : wf_image dmapL ∧ im_mode dmapL = ModeL).
  { subst dmapL. destruct (decide (im_mode dmap ≠ ModeL)) as [Hne|He].
    - destruct (convert_L_wf luma dmap Hwfd). done.
    - split; [done|]. destruct (im_mode dmap); [done|]. exfalso. by apply He. }
  destruct HwfL as [HwfL HmL].
  destruct (shifted_pixels_from_row dmapL tiled (Z.of_nat (im_size t).1)
              HwfL Hwfi) as (out' & Hshift' & Hfrom); [done|done|].
  assert (out' = out) as -> by congruence.
  intros i j p Hp.
  destruct (Hfrom i j p Hp) as [i' Hi'].
  destruct (pixel_at_in_range tiled i' j p Hwfi Hi') as [Hx Hy].
  assert (im_width tiled = im_width dmapL ∧ im_height tiled = im_height dmapL)
    as [Hwt Hht] by (unfold im_size in Hsz'; by simplify_eq).
  rewrite Hpix in Hi' by lia. simplify_eq.
  destruct (pixel_at_wf t (i' mod im_width t) (j mod im_height t))
    as [q Hq]; [done|by apply Nat.mod_upper_bound; lia..|].
  exists (i' mod im_width t)%nat, (j mod im_height t)%nat, q.
  split; [done|]. unfold tile_px. by rewrite Hq.
Qed.

Lemma stereogram_pixels_from_tile_witness :
  ∃ out,
    createAutostereogram randint_low covers_box luma_601 ex_depth4_5
        (Some ex_tile2) tt = Some (out, tt) ∧
    ∀ (i j : nat) (p : pixel),
      pixel_at out i j = Some p →
      ∃ (x y : nat) (q : pixel), pixel_at ex_tile2 x y = Some q ∧ p = to_rgb q.
Proof.
  apply (stereogram_pixels_from_tile randint_low covers_box luma_601
           ex_depth4_5 ex_tile2 tt);
    [solve_wf | solve_wf | simpl; lia | simpl; lia].
Defined.

(** X13: with a well-formed depth map and tile, the pipeline raises
    exactly when the tile has width or height 0, through the division in
    the tiler; otherwise it returns an image of the depth map's size. *)
Theorem stereogram_fails_iff_empty_tile {rng : Type}
    (randint : Z → Z → rng → Z * rng)
    (ellipse_covers : Z * Z * Z * Z → Z → Z → bool)
    (luma : Z → Z → Z → Z) (dmap t : image) (g : rng) :
  wf_image dmap → wf_image t →
  (createAutostereogram randint ellipse_covers luma dmap (Some t) g = None
     ↔ im_width t = 0%nat ∨ im_height t = 0%nat) ∧
  (∀ out g', createAutostereogram randint ellipse_covers luma dmap (Some t) g
               = Some (out, g') →
             im_size out = im_size dmap ∧ g' = g).
Proof.
  intros Hwfd Hwft.
  destruct (decide (im_width t = 0%nat ∨ im_height t = 0%nat)) as [Hz|Hnz].
  - assert (Hnone : createAutostereogram randint ellipse_covers luma dmap
                      (Some t) g = None).
    { unfold createAutostereogram. cbn [mbind option_bind].
      by rewrite (proj2 (createTiledImage_none_iff t _) Hz). }
    rewrite Hnone. split; [done|]. intros out g'. discriminate.
  - destruct (createAutostereogram_stages randint ellipse_covers luma
                dmap (Some t) g Hwfd)
      as (dmapL & t0 & tiled & out & g1 & _ & [-> ->] & _ & _ & Hrun & _ & _
          & Hsz).
    { intros t' [= <-]. split; [done|]. lia. }
    rewrite Hrun. split.
    + split; [discriminate|done].
    + intros out' g' [= <- <-]. done.
Qed.

Lemma stereogram_fails_iff_empty_tile_witness :
  (createAutostereogram randint_low covers_box luma_601 ex_flat4
     (Some (new_image ModeRGB (0%nat, 3%nat))) tt = None
     ↔ im_width (new_image ModeRGB (0%nat, 3%nat)) = 0%nat
       ∨ im_height (new_image ModeRGB (0%nat, 3%nat)) = 0%nat) ∧
  (∀ out g', createAutostereogram randint_low covers_box luma_601 ex_flat4
               (Some (new_image ModeRGB (0%nat, 3%nat))) tt = Some (out, g') →
             im_size out = im_size ex_flat4 ∧ g' = tt).
Proof.
  apply (stereogram_fails_iff_empty_tile randint_low covers_box luma_601
           ex_flat4 (new_image ModeRGB (0%nat, 3%nat)) tt);
    [solve_wf | apply new_image_wf].
Defined.

(** ** The test depth map *)

Lemma pixel_at_paste_color img colour (x0 y0 x1 y1 : Z) (x y : nat) :
  pixel_at (paste_color img colour (x0, y0, x1, y1)) x y
  = (λ old, if (x0 <=? Z.of_nat x) && (Z.of_nat x <? x1) &&
               (y0 <=? Z.of_nat y) && (Z.of_nat y <? y1)
            then colour else old) <$> pixel_at img x y.
Proof.
  unfold pixel_at, paste_color. simpl. rewrite list_lookup_imap.
  destruct (im_data img !! y) as [row|]; [simpl|done].
  by rewrite list_lookup_imap.
Qed.

Lemma paste_color_dims img colour box W H :
  grid_dims W H (im_data img) →
  grid_dims W H (im_data (paste_color img colour box)).
Proof.
  intros [Hlen Hrows]. destruct box as [[[x0 y0] x1] y1].
  unfold paste_color. simpl. split.
  - by rewrite length_imap.
  - apply Forall_lookup_2. intros y row. rewrite list_lookup_imap.
    destruct (im_data img !! y) as [row0|] eqn:Hrow; [simpl|done].
    intros [= <-]. rewrite length_imap.
    by apply (Forall_lookup_1 _ _ _ _ Hrows Hrow).
Qed.

Lemma createDepthMap_pixel (W H x y : nat) :
  (x < W)%nat → (y < H)%nat →
  pixel_at (createDepthMap (W, H)) x y = Some (PxL (depth_at x y)).
Proof.
  intros Hx Hy. unfold createDepthMap.
  rewrite !pixel_at_paste_color, pixel_at_new by done.
  cbn [fmap option_fmap option_map black]. f_equal.
  unfold depth_at.
  destruct (Nat.leb_spec 200 x), (Nat.ltb_spec x 300),
           (Nat.leb_spec 25 y), (Nat.ltb_spec y 125),
           (Nat.leb_spec 150 y), (Nat.ltb_spec y 250),
           (Nat.leb_spec 275 y), (Nat.ltb_spec y 375);
    cbn [andb]; try lia;
    repeat match goal with
    | |- context [?a <=? ?b] =>
        first [ rewrite (proj2 (Z.leb_le a b)) by lia
              | rewrite (proj2 (Z.leb_gt a b)) by lia ]
    | |- context [?a <? ?b] =>
        first [ rewrite (proj2 (Z.ltb_lt a b)) by lia
              | rewrite (proj2 (Z.ltb_ge a b)) by lia ]
    end; reflexivity.
Qed.

Lemma createDepthMap_wf (dims : nat * nat) :
  wf_image (createDepthMap dims) ∧ im_mode (createDepthMap dims) = ModeL ∧
  im_size (createDepthMap dims) = dims.
Proof.
  destruct dims as [W H].
  assert (Hd : grid_dims W H (im_data (createDepthMap (W, H)))).
  { unfold createDepthMap. do 3 apply paste_color_dims. apply new_image_dims. }
  split_and!; [|done|done].
  apply wf_of_pixels; [exact Hd|].
  intros x y p Hp.
  assert (Hr : (x < W)%nat ∧ (y < H)%nat).
  { unfold pixel_at in Hp. destruct Hd as [Hl Hr].
    destruct (im_data (createDepthMap (W, H)) !! y) as [row|] eqn:Hrow; [|done].
    simpl in Hp. pose proof (Forall_lookup_1 _ _ _ _ Hr Hrow) as Hlen.
    simpl in Hlen. apply lookup_lt_Some in Hrow, Hp. lia. }
  destruct Hr as [Hx Hy]. rewrite createDepthMap_pixel in Hp by done.
  by simplify_eq.
Qed.

(** X14: for every size, also one smaller than the three boxes (the
    boxes are clipped, nothing raises), [createDepthMap] returns a
    well-formed single-channel image of that size whose sample at
    [(x, y)] is 10, 30 or 20 in the three boxes of columns 200 to 299 and
    rows 25 to 124, 150 to 249 and 275 to 374, and 0 elsewhere. *)
Theorem depth_map_samples (dims : nat * nat) :
  wf_image (createDepthMap dims) ∧
  im_mode (createDepthMap dims) = ModeL ∧
  im_size (createDepthMap dims) = dims ∧
  (∀ x y : nat, (x < dims.1)%nat → (y < dims.2)%nat →
     pixel_at (createDepthMap dims) x y = Some (PxL (depth_at x y))) ∧
  (∀ x y : nat,
     depth_at x y = 0 ∨ depth_at x y = 10 ∨ depth_at x y = 20
     ∨ depth_at x y = 30) ∧
  (∀ x y : nat, (x < 200)%nat ∨ (300 ≤ x)%nat → depth_at x y = 0).
Proof.
  destruct (createDepthMap_wf dims) as (Hwf & Hm & Hsz).
  split_and!; [done|done|done|..].
  - destruct dims as [W H]. intros x y. apply createDepthMap_pixel.
  - intros x y. unfold depth_at.
    repeat match goal with |- context [if ?b then _ else _] => destruct b end;
      auto.
  - intros x y Hx. unfold depth_at.
    destruct (Nat.leb_spec 200 x), (Nat.ltb_spec x 300);
      cbn [andb]; try reflexivity; lia.
Qed.

(** X15: resampling against the test depth map never touches a column
    [i <= period] left of column 200: there every sample is 0 and [xpos]
    is not positive.  With a period of at most 199 the first [period + 1]
    columns of the output are those of the input image. *)
Theorem depth_map_reference_strip (dims : nat * nat) (img : image)
    (period : Z) :
  wf_image img → im_size img = dims →
  ∃ out,
    createDepthShiftedImage (createDepthMap dims) img period = Some out ∧
    im_size out = dims ∧
    ∀ i j : nat,
      Z.of_nat i ≤ period → (i < 200)%nat →
      pixel_at out i j = pixel_at img i j.
Proof.
  intros Hwf Hsz.
  destruct (createDepthMap_wf dims) as (HwfD & HmD & HszD).
  destruct (createDepthShiftedImage_spec (createDepthMap dims) img period
              HwfD Hwf) as (out & Hrun & _ & Hosz & Hwfo & Hpix);
    [congruence|done|].
  exists out. split; [done|]. split; [congruence|].
  intros i j Hi H200.
  destruct (decide ((i < dims.1)%nat ∧ (j < dims.2)%nat)) as [[Hx Hy]|Hout].
  - pose proof (createDepthMap_pixel dims.1 dims.2 i j Hx Hy) as Hd.
    destruct dims as [W H]. simpl in Hd.
    rewrite (Hpix i j _ Hd), writes_false_nonpos; [done|].
    unfold tenths, depth_at.
    destruct (Nat.leb_spec 200 i); [lia|]. cbn [andb]. lia.
  - assert (Hwo : im_width out = dims.1 ∧ im_height out = dims.2)
      by (rewrite <- Hsz in *; unfold im_size in Hosz; by simplify_eq).
    assert (Hwi : im_width img = dims.1 ∧ im_height img = dims.2)
      by (rewrite <- Hsz; done).
    destruct (pixel_at out i j) as [p|] eqn:Hp.
    { apply (pixel_at_in_range out i j p Hwfo) in Hp. lia. }
    destruct (pixel_at img i j) as [q|] eqn:Hq; [|done].
    apply (pixel_at_in_range img i j q Hwf) in Hq. lia.
Qed.

Lemma depth_map_reference_strip_witness :
  ∃ out,
    createDepthShiftedImage (createDepthMap (4%nat, 1%nat)) ex_row4 2
      = Some out ∧
    im_size out = (4%nat, 1%nat) ∧
    ∀ i j : nat,
      Z.of_nat i ≤ 2 → (i < 200)%nat →
      pixel_at out i j = pixel_at ex_row4 i j.
Proof.
  apply (depth_map_reference_strip (4%nat, 1%nat) ex_row4 2);
    [solve_wf | reflexivity].
Defined.

(** ** The spacing example *)

Lemma foldl_inv {A B : Type} (P : A → Prop) (f : A → B → A) (l : list B) :
  (∀ s x, P s → P (f s x)) → ∀ s, P s → P (foldl f s l).
Proof.
  intros Hf. induction l as [|x l IH]; intros s Hs; simpl; [done|].
  apply IH, Hf, Hs.
Qed.

Lemma to_rgb_mode (p : pixel) : pixel_has_mode ModeRGB (to_rgb p).
Proof. by destruct p. Qed.

Lemma paste_wf (img tile : image) (box : Z * Z) :
  wf_image img → im_mode img = ModeRGB →
  wf_image (paste img tile box) ∧ same_header (paste img tile box) img.
Proof.
  intros [Hd Hm] HM. split; [|done]. split.
  - by apply paste_dims.
  - unfold paste. simpl. rewrite HM in *.
    apply Forall_lookup_2. intros y row. rewrite list_lookup_imap.
    destruct (im_data img !! y) as [row0|] eqn:Hrow; [simpl|done].
    intros [= <-]. apply Forall_lookup_2. intros x p.
    rewrite list_lookup_imap.
    destruct (row0 !! x) as [p0|] eqn:Hp0; [simpl|done].
    intros [= <-]. unfold paste_pixel.
    pose proof (Forall_lookup_1 _ _ _ _ Hm Hrow) as Hr.
    pose proof (Forall_lookup_1 _ _ _ _ Hr Hp0) as Hp.
    destruct (_ && _); [|done].
    destruct (getpixel _ _ _); [apply to_rgb_mode|done].
Qed.

(** A paste whose corner lies at or beyond the right edge changes
    nothing. *)
Lemma paste_off_canvas (img tile : image) (x0 y0 : Z) :
  grid_dims (im_width img) (im_height img) (im_data img) →
  Z.of_nat (im_width img) ≤ x0 →
  paste img tile (x0, y0) = img.
Proof.
  intros [Hlen Hrows] Hx0. destruct img as [m W H pix]. simpl in *.
  unfold paste, with_data. simpl. f_equal.
  apply list_eq. intros y. rewrite list_lookup_imap.
  destruct (pix !! y) as [row|] eqn:Hrow; [simpl|done]. f_equal.
  pose proof (Forall_lookup_1 _ _ _ _ Hrows Hrow) as Hl. simpl in Hl.
  apply list_eq. intros x. rewrite list_lookup_imap.
  destruct (row !! x) as [p|] eqn:Hp; [simpl|done]. f_equal.
  apply lookup_lt_Some in Hp. unfold paste_pixel.
  by rewrite (proj2 (Z.leb_gt x0 (Z.of_nat x))) by lia.
Qed.

(** A paste leaves the pixels above and left of its corner. *)
Lemma paste_before_corner (img tile : image) (x0 y0 : Z) (x y : nat) :
  Z.of_nat x < x0 ∨ Z.of_nat y < y0 →
  pixel_at (paste img tile (x0, y0)) x y = pixel_at img x y.
Proof.
  intros Hxy. rewrite pixel_at_paste.
  destruct (pixel_at img x y) as [p|]; [simpl|done]. f_equal.
  unfold paste_pixel.
  destruct Hxy as [Hx|Hy].
  - by rewrite (proj2 (Z.leb_gt x0 (Z.of_nat x))) by lia.
  - rewrite (proj2 (Z.leb_gt y0 (Z.of_nat y))) by lia.
    by rewrite !andb_false_r.
Qed.

Lemma canvas_inv_paste (img tile : image) (i j : nat) :
  canvas_inv img →
  canvas_inv (paste img tile
                (10 + Z.of_nat i * (100 + Z.of_nat j * 10),
                 10 + Z.of_nat j * 100)).
Proof.
  intros (Hwf & Hm & Hw & Hh & Hmargin).
  destruct (paste_wf img tile
              (10 + Z.of_nat i * (100 + Z.of_nat j * 10),
               10 + Z.of_nat j * 100) Hwf Hm) as [Hwf' _].
  split_and!; [done|done|done|done|].
  intros x y Hxy Hx Hy. rewrite paste_before_corner; [by apply Hmargin|].
  destruct Hxy; [left|right]; nia.
Qed.

(** X16: for every list of tiles the spacing example returns a
    well-formed 600 x 400 RGB image whose 10 left columns and 10 top rows
    stay black; the copies numbered 6 and 7 of every row start beyond the
    right edge, so the image is the one that six copies per tile give. *)
Theorem spacing_example_image (tiles : list image) :
  wf_image (createSpacingDepthExample tiles) ∧
  im_mode (createSpacingDepthExample tiles) = ModeRGB ∧
  im_size (createSpacingDepthExample tiles) = (600%nat, 400%nat) ∧
  (∀ x y : nat, (x < 10)%nat ∨ (y < 10)%nat → (x < 600)%nat → (y < 400)%nat →
     pixel_at (createSpacingDepthExample tiles) x y = Some (PxRGB 0 0 0)) ∧
  createSpacingDepthExample tiles = spacing_example 6 tiles.
Proof.
  unfold createSpacingDepthExample, spacing_example.
  set (img0 := new_image ModeRGB (600%nat, 400%nat)).
  assert (H0 : canvas_inv img0).
  { split_and!; [apply new_image_wf|done|done|done|].
    intros x y _ Hx Hy. by apply (pixel_at_new ModeRGB). }
  set (inner := λ (n : nat) (img : image) (jt : nat * image),
         let '(j, tile) := jt in
         foldl (λ img i,
                  paste img tile
                    (10 + Z.of_nat i * (100 + Z.of_nat j * 10),
                     10 + Z.of_nat j * 100))
               img (seq 0 n)).
  assert (Hinv : ∀ n img jt, canvas_inv img → canvas_inv (inner n img jt)).
  { intros n img [j tile] Himg. unfold inner.
    apply foldl_inv; [|done]. intros s i Hs. by apply canvas_inv_paste. }
  assert (Heq : ∀ img jt, canvas_inv img → inner 8%nat img jt = inner 6%nat img jt).
  { intros img [j tile] Himg. unfold inner.
    change (seq 0 8) with (seq 0 6 ++ [6%nat; 7%nat]).
    rewrite foldl_app.
    pose proof (Hinv 6%nat img (j, tile) Himg) as H6. unfold inner in H6.
    set (img6 := foldl _ img (seq 0 6)) in *.
    destruct H6 as ([Hd6 _] & _ & Hw6 & Hh6 & _).
    cbn [foldl].
    rewrite (paste_off_canvas img6 tile) by (done || (rewrite Hw6; lia)).
    rewrite (paste_off_canvas img6 tile) by (done || (rewrite Hw6; lia)).
    done. }
  assert (Hfold : ∀ l img, canvas_inv img →
            foldl (inner 8%nat) img l = foldl (inner 6%nat) img l ∧
            canvas_inv (foldl (inner 8%nat) img l)).
  { induction l as [|jt l IH]; intros img Himg; simpl; [done|].
    rewrite Heq by done. apply IH. by apply Hinv. }
  destruct (Hfold (zip (seq 0 (length tiles)) tiles) img0 H0)
    as [Hsame (Hwf & Hm & Hw & Hh & Hmargin)].
  split_and!; [exact Hwf|exact Hm| |exact Hmargin|exact Hsame].
  unfold im_size. f_equal; [exact Hw|exact Hh].
Qed.

(** ** The anamorph's triangle strip and its controls *)

Lemma foldl_seq_inv {A : Type} (P : nat → A → Prop) (f : A → nat → A)
    (k : nat) : ∀ (a : nat) (s : A),
  P a s →
  (∀ i s, (a ≤ i < a + k)%nat → P i s → P (S i) (f s i)) →
  P (a + k)%nat (foldl f s (seq a k)).
Proof.
  induction k as [|k IH]; intros a s Hs Hf; simpl.
  - by rewrite Nat.add_0_r.
  - replace (a + S k)%nat with (S a + k)%nat by lia.
    apply IH.
    + apply Hf; [lia|done].
    + intros i s0 Hi. apply Hf. lia.
Qed.

(** The state after the cells [0 .. i-1] of ring [j]. *)
Lemma strip_cell_inv (nR j i : nat) (st : list Z * Z) :
  (i < nR)%nat →
  (st.2 = Z.of_nat j * Z.of_nat nR + Z.of_nat i ∧
   Z.of_nat (length st.1)
     = strip_len nR j + 2 * Z.of_nat i
       + (if decide ((0 < j)%nat ∧ (0 < i)%nat) then 1 else 0) ∧
   Forall (λ v, 0 ≤ v < (Z.of_nat j + 1) * Z.of_nat nR + Z.of_nat i) st.1) →
  let st' := strip_cell nR j i st in
  st'.2 = Z.of_nat j * Z.of_nat nR + Z.of_nat (S i) ∧
  Z.of_nat (length st'.1)
    = strip_len nR j + 2 * Z.of_nat (S i)
      + (if decide ((0 < j)%nat ∧ (0 < S i)%nat) then 1 else 0)
      + (if decide (S i = nR) then 1 else 0) ∧
  Forall (λ v, 0 ≤ v < (Z.of_nat j + 1) * Z.of_nat nR + Z.of_nat (S i)) st'.1.
Proof.
  intros Hi (Hidx & Hlen & Hall). destruct st as [l idx]. simpl in *.
  unfold strip_cell.
  assert (Hweak : Forall (λ v, 0 ≤ v < (Z.of_nat j + 1) * Z.of_nat nR
                                       + Z.of_nat (S i)) l).
  { eapply Forall_impl; [exact Hall|]. intros v Hv. simpl in Hv. lia. }
  destruct (Nat.ltb_spec 0 j) as [Hj|Hj], (Nat.eqb_spec i 0) as [Hi0|Hi0],
           (Z.eqb_spec (Z.of_nat i) (Z.of_nat nR - 1)) as [Hl|Hl];
    cbn [andb fst snd];
    (split; [lia|]); rewrite ?length_app; cbn [length];
    (split;
     [ repeat case_decide; lia
     | rewrite ?Forall_app, ?Forall_singleton; split_and!; (done || nia) ]).
Qed.

(** The state after the rings [0 .. j-1]. *)
Lemma strip_rows_inv (nR nH : nat) :
  (0 < nR)%nat →
  let st := foldl (λ st j, foldl (λ st i, strip_cell nR j i st) st (seq 0 nR))
                  ([], 0) (seq 0 (nH - 1)) in
  st.2 = Z.of_nat (nH - 1) * Z.of_nat nR ∧
  Z.of_nat (length st.1) = strip_len nR (nH - 1) ∧
  Forall (λ v, 0 ≤ v < (Z.of_nat (nH - 1) + 1) * Z.of_nat nR) st.1.
Proof.
  intros HnR.
  apply (foldl_seq_inv
    (λ j (st : list Z * Z),
       st.2 = Z.of_nat j * Z.of_nat nR ∧
       Z.of_nat (length st.1) = strip_len nR j ∧
       Forall (λ v, 0 ≤ v < (Z.of_nat j + 1) * Z.of_nat nR) st.1)
    _ (nH - 1) 0).
  - split_and!; [simpl; lia|reflexivity|constructor].
  - intros j st _ (Hidx & Hlen & Hall).
    pose proof (foldl_seq_inv
      (λ i (st : list Z * Z),
         st.2 = Z.of_nat j * Z.of_nat nR + Z.of_nat i ∧
         Z.of_nat (length st.1)
           = strip_len nR j + 2 * Z.of_nat i
             + (if decide ((0 < j)%nat ∧ (0 < i)%nat) then 1 else 0)
             + (if decide (i = nR) then 1 else 0) ∧
         Forall (λ v, 0 ≤ v < (Z.of_nat j + 1) * Z.of_nat nR + Z.of_nat i) st.1)
      (λ st i, strip_cell nR j i st) nR 0 st) as Hrow.
    cbn beta in Hrow. destruct Hrow as (Hidx' & Hlen' & Hall').
    + split_and!; [lia| |].
      * rewrite decide_False by lia. rewrite decide_False by lia. lia.
      * eapply Forall_impl; [exact Hall|]. intros v Hv. simpl in Hv. lia.
    + intros i s Hi (H1 & H2 & H3).
      apply (strip_cell_inv nR j i s); [lia|].
      split_and!; [done| |done].
      rewrite H2. rewrite (decide_False (P := i = nR)) by lia. lia.
    + simpl in Hidx', Hlen', Hall'. split_and!.
      * lia.
      * rewrite Hlen'. unfold strip_len.
        repeat case_decide; lia.
      * eapply Forall_impl; [exact Hall'|]. intros v Hv. simpl in Hv. lia.
Qed.

(** X17: for [nR] vertices per ring and [nH] rings in the range of
    [strip_range], [nR >= 1], every entry of the index buffer is the
    index of one of the [nR * nH] vertices and fits a 16-bit entry, and
    the buffer holds [(nH - 1) * (2 nR + 2) - 1] entries (none when
    [nH <= 1]): two per vertex of a ring, one repeat at the end of each
    ring, the last included, and one at the start of each ring but the
    first.  For the source's 100 x 100 grid that is 19997 entries, all
    below 10000. *)
Theorem strip_indices_valid (nR nH : nat) :
  (0 < nR)%nat → strip_range nR nH →
  Forall (λ v, 0 ≤ v < Z.of_nat nR * Z.of_nat nH ∧ v < 2 ^ 15)
         (strip_indices nR nH) ∧
  Z.of_nat (length (strip_indices nR nH))
    = (if decide (nH ≤ 1)%nat then 0
       else (Z.of_nat nH - 1) * (2 * Z.of_nat nR + 2) - 1).
Proof.
  intros HnR [_ H16]. unfold strip_indices.
  destruct (strip_rows_inv nR nH HnR) as (_ & Hlen & Hall).
  split.
  - destruct (decide (nH = 0%nat)) as [->|HnH].
    + simpl. constructor.
    + eapply Forall_impl; [exact Hall|]. intros v Hv. simpl in Hv.
      assert (v < Z.of_nat nR * Z.of_nat nH) by nia. lia.
  - rewrite Hlen. unfold strip_len. repeat case_decide; lia.
Qed.

Lemma strip_indices_valid_witness :
  Forall (λ v, 0 ≤ v < Z.of_nat 100 * Z.of_nat 100 ∧ v < 2 ^ 15)
         (strip_indices 100 100) ∧
  Z.of_nat (length (strip_indices 100 100))
    = (if decide (100 ≤ 1)%nat then 0
       else (Z.of_nat 100 - 1) * (2 * Z.of_nat 100 + 2) - 1).
Proof.
  apply (strip_indices_valid 100 100); [lia|].
  split; [lia|]. by vm_compute.
Defined.

(** X18: the angle counter of [step] stays in [0, 360) and counts modulo
    360: after [n] steps from [t] it is [(t + n) mod 360], so 360 steps
    bring it back. *)
Theorem step_counts_mod_360 (n : nat) (t : Z) :
  0 ≤ t < 360 →
  Nat.iter n step_t t = (t + Z.of_nat n) mod 360 ∧
  0 ≤ Nat.iter n step_t t < 360 ∧
  Nat.iter 360 step_t t = t.
Proof.
  intros Ht.
  assert (Hiter : ∀ k, Nat.iter k step_t t = (t + Z.of_nat k) mod 360).
  { induction k as [|k IH].
    - simpl. rewrite Z.add_0_r. symmetry. by apply Z.mod_small.
    - rewrite Nat.iter_succ, IH. unfold step_t.
      rewrite Zplus_mod_idemp_l. f_equal. lia. }
  split; [apply Hiter|]. split.
  - rewrite Hiter. apply Z.mod_pos_bound. lia.
  - rewrite Hiter. change (Z.of_nat 360) with (1 * 360).
    rewrite Z_mod_plus_full. by apply Z.mod_small.
Qed.

Lemma step_counts_mod_360_witness :
  Nat.iter 5 step_t 358 = (358 + Z.of_nat 5) mod 360 ∧
  0 ≤ Nat.iter 5 step_t 358 < 360 ∧
  Nat.iter 360 step_t 358 = 358.
Proof. apply (step_counts_mod_360 5 358). lia. Defined.

Lemma onKeyboard_exit (PRESS KEY_ESCAPE KEY_P key action : Z)
    (st : ui_state) :
  exitNow (onKeyboard PRESS KEY_ESCAPE KEY_P key action st) = true
    ↔ exitNow st = true ∨ (action = PRESS ∧ key = KEY_ESCAPE).
Proof.
  unfold onKeyboard.
  destruct (decide (action = PRESS)) as [Hp|Hp].
  - destruct (decide (key = KEY_ESCAPE)) as [He|He].
    + cbn [exitNow]. split; [by right|done].
    + destruct (decide (key = KEY_P)); cbn [exitNow];
        (split; [by left|]); by intros [H|[_ H]].
  - split; [by left|]. by intros [H|[H _]].
Qed.

Lemma onKeyboard_show (PRESS KEY_ESCAPE KEY_P key action : Z)
    (st : ui_state) :
  showCylinder (onKeyboard PRESS KEY_ESCAPE KEY_P key action st)
  = xorb (showCylinder st) (flips PRESS KEY_ESCAPE KEY_P (key, action)).
Proof.
  unfold onKeyboard, flips. cbn [fst snd].
  destruct (decide (action = PRESS)) as [Hp|Hp].
  - rewrite (bool_decide_eq_true_2 _ Hp).
    destruct (decide (key = KEY_ESCAPE)) as [He|He].
    + rewrite (bool_decide_eq_true_2 _ He). cbn [andb negb showCylinder].
      by destruct (showCylinder st).
    + rewrite (bool_decide_eq_false_2 _ He).
      destruct (decide (key = KEY_P)) as [Hk|Hk].
      * rewrite (bool_decide_eq_true_2 _ Hk). cbn [andb negb].
        by destruct (showCylinder st).
      * rewrite (bool_decide_eq_false_2 _ Hk). cbn [andb negb showCylinder].
        by destruct (showCylinder st).
  - rewrite (bool_decide_eq_false_2 _ Hp). cbn [andb].
    by destruct (showCylinder st).
Qed.

(** X19: over any sequence of keyboard events the exit flag is never
    cleared: it is set at the end exactly when it was set before or some
    event is a press of Escape; and [showCylinder] is flipped once for
    every press of a key other than Escape and P, so it ends flipped
    exactly when their number is odd. *)
Theorem keyboard_flags (PRESS KEY_ESCAPE KEY_P : Z) (evs : list (Z * Z))
    (st : ui_state) :
  (exitNow (after_keys PRESS KEY_ESCAPE KEY_P evs st) = true
     ↔ exitNow st = true
       ∨ ∃ ev, ev ∈ evs ∧ ev.2 = PRESS ∧ ev.1 = KEY_ESCAPE) ∧
  showCylinder (after_keys PRESS KEY_ESCAPE KEY_P evs st)
    = xorb (showCylinder st)
           (Nat.odd (length (filter (λ ev, flips PRESS KEY_ESCAPE KEY_P ev = true)
                                    evs))).
Proof.
  unfold after_keys. revert st.
  induction evs as [|ev evs IH]; intros st.
  - simpl. split; [|by destruct (showCylinder st)].
    split; [by left|]. intros [H|(ev & Hin & _)]; [done|].
    by apply elem_of_nil in Hin.
  - cbn [foldl]. destruct (IH (onKeyboard PRESS KEY_ESCAPE KEY_P ev.1 ev.2 st))
      as [IHe IHs]. split.
    + rewrite IHe, onKeyboard_exit. split.
      * intros [[HA|HB]|(ev' & Hin & Hev)].
        -- by left.
        -- right. exists ev. split; [apply list_elem_of_here|done].
        -- right. exists ev'. split; [by apply list_elem_of_further|done].
      * intros [HA|(ev' & Hin & Hev)].
        -- by left; left.
        -- apply elem_of_cons in Hin as [Heq|Hin].
           ++ subst ev'. by left; right.
           ++ right. by exists ev'.
    + rewrite IHs, onKeyboard_show, filter_cons.
      destruct ev as [key action]. cbn [fst snd].
      destruct (flips PRESS KEY_ESCAPE KEY_P (key, action)) eqn:Hf.
      * rewrite decide_True by done. cbn [length].
        rewrite Nat.odd_succ, <- Nat.negb_odd.
        by destruct (showCylinder st), (Nat.odd _).
      * rewrite decide_False by done.
        by destruct (showCylinder st), (Nat.odd _).
Qed.

Lemma strip_cells_index (nR j : nat) (cells : list nat) : ∀ st : list Z * Z,
  (foldl (λ st i, strip_cell nR j i st) st cells).2
  = st.2 + Z.of_nat (length cells).
Proof.
  induction cells as [|i cells IH]; intros st; cbn [foldl length].
  - lia.
  - rewrite IH. destruct st as [l idx]. unfold strip_cell. cbn [snd]. lia.
Qed.

(** X20: for [nR >= 1] and [nH >= 2] in the range of [strip_range] the
    index buffer ends with the last vertex, [nR * nH - 1], twice: the
    repeat that closes a ring is appended after the last ring as well. *)
Theorem strip_indices_end (nR nH : nat) :
  (0 < nR)%nat → (2 ≤ nH)%nat → strip_range nR nH →
  ∃ l, strip_indices nR nH
       = l ++ [Z.of_nat nR * Z.of_nat nH - 1; Z.of_nat nR * Z.of_nat nH - 1] ∧
       Z.of_nat nR * Z.of_nat nH - 1 < 2 ^ 15.
Proof.
  intros HnR HnH [_ H16]. unfold strip_indices.
  assert (Hrows : seq 0 (nH - 1) = seq 0 (nH - 2) ++ [(nH - 2)%nat]).
  { replace (nH - 1)%nat with ((nH - 2) + 1)%nat by lia.
    by rewrite seq_app. }
  assert (Hcells : seq 0 nR = seq 0 (nR - 1) ++ [(nR - 1)%nat]).
  { replace nR with ((nR - 1) + 1)%nat at 1 by lia.
    by rewrite seq_app. }
  rewrite Hrows, foldl_app. cbn [foldl].
  pose proof (strip_rows_inv nR (nH - 1) HnR) as (Hidx & _ & _).
  cbn zeta in Hidx.
  replace (nH - 1 - 1)%nat with (nH - 2)%nat in Hidx by lia.
  set (st1 := foldl _ ([], 0) (seq 0 (nH - 2))) in *.
  rewrite Hcells, foldl_app. cbn [foldl].
  pose proof (strip_cells_index nR (nH - 2) (seq 0 (nR - 1)) st1) as Hidx2.
  rewrite length_seq, Hidx in Hidx2.
  set (st2 := foldl _ st1 (seq 0 (nR - 1))) in *.
  destruct st2 as [l idx]. cbn [snd] in Hidx2. unfold strip_cell.
  rewrite (proj2 (Z.eqb_eq (Z.of_nat (nR - 1)) (Z.of_nat nR - 1))) by lia.
  cbn [fst].
  replace (idx + Z.of_nat nR) with (Z.of_nat nR * Z.of_nat nH - 1) by nia.
  match goal with |- ∃ l0, (?l1 ++ [?v]) ++ [?v] = _ ∧ _ => exists l1 end.
  split; [by rewrite <- app_assoc | lia].
Qed.

Lemma strip_indices_end_witness :
  ∃ l, strip_indices 100 100
       = l ++ [Z.of_nat 100 * Z.of_nat 100 - 1; Z.of_nat 100 * Z.of_nat 100 - 1] ∧
       Z.of_nat 100 * Z.of_nat 100 - 1 < 2 ^ 15.
Proof.
  apply (strip_indices_end 100 100); [lia | lia |].
  split; [lia|]. by vm_compute.
Defined.
